(** * The Asyngular engine of artillery: emit steps and response correlation

    A shallow embedding of [core/lib/engine_asyngular.js].  The engine runs
    one scenario step at a time for a virtual user: it sends a message on a
    channel and, when the step asks for it, waits for messages on one or more
    channels, validates each of them and calls the step's callback.

    The JavaScript is written with callbacks, timers and [for await] loops.
    Here every effect is explicit: a step is a state ([step_state]) that the
    arriving messages and the timer drive ([on_input]), and everything the
    code does to the outside (notifications on the event emitter, messages
    transmitted, receivers closed, the step's callback) is appended to a log
    ([st_log]) in the order the code does it.

    What is embedded: [markEndTime], [isResponseRequired],
    [isAcknowledgeRequired], [processResponse], the functions [f] and
    [preStep] of [step], and [loadContextSocket].  The loop branch of
    [step], [createScenario], [compile] and [closeContextSockets] are not.

    What is assumed of the surroundings:
    - numbers are integers, and the monotonic clock is read in nanoseconds;
      elapsed times stay below 2^53 nanoseconds (104 days), where the
      arithmetic of [markEndTime], done on doubles, is exact;
    - [template], [deepEqual], [JSON.stringify], [captureOrMatch] and the
      functions of [config.processor] are pure and do not throw, and
      [captureOrMatch] calls back before it returns;
    - an input [Message] stands for a message that the [for await] loop of
      its channel takes: one that arrives while the loop waits, or one of
      the backlog, which the loop goes on taking after
      [closeReceiver(channel)]; only a loop whose body threw takes no more,
      and the exception ends that loop and nothing else;
    - the transport may call the acknowledgement callback any number of
      times;
    - the timer set by [setTimeout] fires at most once. *)

From stdpp Require Import base option list strings gmap fin_maps pretty.
From Stdlib Require Import ZArith Lia.

Open Scope Z_scope.
Set Warnings "-register-all".

(** ** JavaScript values *)

Inductive value : Type :=
| VUndefined
| VNull
| VBool (b : bool)
| VNum (n : Z)
| VStr (s : string)
| VArr (items : list value)
| VObj (fields : list (string * value))
| VArguments (items : list value).

(** What [if (v)], [!v] and [v || w] look at. *)
Definition truthy (v : value) : bool :=
  match v with
  | VUndefined | VNull => false
  | VBool b => b
  | VNum n => negb (n =? 0)
  | VStr s => negb (String.eqb s "")
  | VArr _ | VObj _ | VArguments _ => true
  end.

(** [a || b] *)
Definition js_or (a b : value) : value := if truthy a then a else b.

(** The property key a value is turned into by [obj[v]] and by the keys
    of [_.groupBy]: the string itself, the decimal numeral of a number, and
    for an array its elements joined by commas.  [VArguments] is the
    [arguments] object of a function call. *)
Fixpoint to_key (v : value) : string :=
  match v with
  | VUndefined => "undefined"
  | VNull => "null"
  | VBool true => "true"
  | VBool false => "false"
  | VNum n => pretty n
  | VStr s => s
  | VArr items =>
      (fix join (l : list value) : string :=
         match l with
         | [] => ""
         | x :: rest =>
             let shown :=
               match x with
               | VUndefined | VNull => ""
               | _ => to_key x
               end in
             match rest with
             | [] => shown
             | _ :: _ => shown +:+ "," +:+ join rest
             end
         end) items
  | VObj _ => "[object Object]"
  | VArguments _ => "[object Arguments]"
  end.

(** ** Errors, sockets, the scenario context *)

(** The errors of the engine: a bare string (['data is not valid'],
    ['response timeout'], ['invalid arguments']), an [Error] object
    ([new Error('Failed match')]) or whatever a collaborator hands over. *)
Inductive error : Type :=
| ErrString (s : string)
| ErrError (message : string)
| ErrExternal (v : value).

(** A channel client: what [io.create(options)] returns. *)
Record socket : Type := { sock_options : value }.

Record context : Type := {
  vars : gmap string value;
  sockets : gmap string socket;
  _successCount : Z;
  _uid : value
}.

(** One expected response, after templating (the objects pushed on
    [responses], and the [response] object of the acknowledge path). *)
Record response : Type := {
  r_channel : value;
  r_data : value;
  r_capture : value;
  r_match : value
}.

(** The result of [engineUtil.captureOrMatch]. *)
Record match_result : Type := {
  success : bool;
  expected : value;
  got : value;
  expression : value
}.

Record capture_result : Type := {
  captures : list (string * value);
  matches : list match_result
}.

(** ** What the engine does to the outside *)

Inductive event : Type :=
| Emit_started
| Emit_request
| Emit_error (e : error)
| Emit_response (delta : Z) (code : Z) (uid : value)
| Emit_match (ok : bool) (exp gotten expr : value)
| Transmit (channel data : value) (with_ack : bool)
| CloseReceiver (channel : string)
| HookCall (name : string) (data : value) (indexed : option response)
| ProcessResponse (channel : string) (data : value) (against : response)
                  (err : option error)
| Callback (err : option error)
| ConsoleError (v : value).

(** ** Collaborators

    The engine calls into [engine_util] ([template], [captureOrMatch]), the
    [deep-equal] package and [JSON.stringify]; none of them is part of the
    engine.  They are taken as pure functions.

    [clock_after now] is what the monotonic clock reads when it is read a
    second time in the turn in which it read [now]: a step that waits for
    nothing calls [process.hrtime] twice in a row. *)

Class Collaborators : Type := {
  template : value -> context -> value;
  deepEqual : value -> value -> bool;
  JSON_stringify : value -> value;
  captureOrMatch : response -> value -> context -> error + capture_result;
  clock_after : Z -> Z
}.

(** ** [processResponse] *)

Section ProcessResponse.
Context `{Collaborators}.

(** [_.each(result.captures, (v, k) => context.vars[k] = v)] *)
Definition populate (caps : list (string * value)) (vs : gmap string value)
  : gmap string value :=
  foldl (fun acc kv => <[kv.1 := kv.2]> acc) vs caps.

Definition match_event (v : match_result) : event :=
  Emit_match (success v) (expected v) (got v) (expression v).

(** The outcome of a call: the notifications emitted, and the arguments
    [(err, context)] its callback is called with. *)
Definition processResponse (data : value) (resp : response) (ctx : context)
  : list event * (option error * context) :=
  if truthy (r_data resp) && negb (deepEqual data (r_data resp)) then
    let err := ErrString "data is not valid" in
    ([Emit_error err], (Some err, ctx))
  else if negb (truthy (r_capture resp)) && negb (truthy (r_match resp)) then
    ([], (None, ctx))
  else
    let body := JSON_stringify data in
    match captureOrMatch resp body ctx with
    | inl err => ([Emit_error err], (Some err, ctx))
    | inr result =>
        let failedMatches :=
          List.filter (fun v => negb (success v)) (matches result) in
        if (0 <? Z.of_nat (length failedMatches)) then
          ([Emit_error (ErrString "Failed match")],
           (Some (ErrError "Failed match"), ctx))
        else
          (map match_event (matches result),
           (None,
            {| vars := <["$" := body]> (populate (captures result) (vars ctx));
               sockets := sockets ctx;
               _successCount := _successCount ctx + 1;
               _uid := _uid ctx |}))
    end.

End ProcessResponse.

(** ** Scenario steps and configuration *)

(** [emit.response]: absent, one response object, or an array of them. *)
Inductive response_req : Type :=
| RespAbsent
| RespOne (r : response)
| RespMany (rs : list response).

(** The [emit] object of a step.  [timeout] is the step-level override the
    data model of the specification lists; it is carried here so that
    statements can mention it. *)
Record emit_spec : Type := {
  namespace : value;
  channel : value;
  data : value;
  emit_response : response_req;
  acknowledge : option response;
  beforeResponse : value;
  timeout : option Z
}.

Record request_spec : Type := {
  think : value;
  emit : option emit_spec
}.

(** A function of [config.processor], called as
    [processFunc(requestSpec, ee, data, responses[index], context)]; what
    it returns is tested for truthiness. *)
Definition hook : Type :=
  request_spec -> value -> option response -> context -> value.

Record config : Type := {
  cfg_timeout : option Z;
  processor : option (string -> option hook);
  asyngular : option value;
  tls : option value
}.

(** ** The state of a running emit step *)

(** What the listener of one channel closes over: [index], [responses],
    [requiredResponsesCountsByChannel[channel]].  [listening] is true until
    the listener calls [closeReceiver] for its channel: from then on the
    loop only takes what was queued before. *)
Record channel_state : Type := {
  index : Z;
  responses : list response;
  requiredCount : Z;
  listening : bool
}.

(** [st_channels] holds the listeners whose loop has not been ended by an
    exception; [st_ack] tells whether the transport was handed
    [ackCallback]. *)
Record step_state : Type := {
  st_context : context;
  st_log : list event;
  st_channels : gmap string channel_state;
  requiredResponsesCount : Z;
  currentResponsesCount : Z;
  startedAt : Z;
  st_timer : option Z;
  st_ack : bool
}.

(** What calling [f] amounts to: it returns the think function, hands the
    step to the HTTP engine, starts an emit step, or throws after having
    done what [log] lists. *)
Inductive outcome : Type :=
| ReturnedThink
| Delegated
| Running (st : step_state)
| Threw (log : list event).

(** What happens while a step runs: the listener of a channel takes a
    message, the transport calls [ackCallback], the timer fires.  [now] is
    the reading of the monotonic clock, in nanoseconds, at that moment. *)
Inductive input : Type :=
| Message (now : Z) (chan : string) (payload : value)
| Acknowledgement (now : Z) (arguments : list value)
| TimerFires.

(** The names every object inherits from [Object.prototype]:
    [context.sockets] is a plain object, and [context.sockets[k]] is truthy
    for each of them although no client is stored under [k]. *)
Definition inherited (k : string) : bool :=
  bool_decide
    (k ∈ ["constructor"; "__defineGetter__"; "__defineSetter__";
          "hasOwnProperty"; "__lookupGetter__"; "__lookupSetter__";
          "isPrototypeOf"; "propertyIsEnumerable"; "toString"; "valueOf";
          "__proto__"; "toLocaleString"]).

(** [responses[index]]: [undefined] out of range, also at [-1]. *)
Definition at_index {A : Type} (l : list A) (i : Z) : option A :=
  if i <? 0 then None else l !! Z.to_nat i.

(** [process.hrtime(startedAt)]: seconds and nanoseconds elapsed.  The
    code recombines them in doubles; below 2^53 nanoseconds that is the
    arithmetic of integers done here. *)
Definition hrtime (now started : Z) : Z * Z :=
  ((now - started) / 1000000000, (now - started) mod 1000000000).

Definition markEndTime (ctx : context) (now started : Z) : event :=
  let endedAt := hrtime now started in
  let delta := endedAt.1 * 1000000000 + endedAt.2 in
  Emit_response delta 0 (_uid ctx).

Definition isResponseRequired (e : emit_spec) : bool :=
  match emit_response e with
  | RespAbsent => false
  | RespOne r => truthy (r_channel r)
  | RespMany rs => negb (bool_decide (rs = []))
  end.

Definition isAcknowledgeRequired (e : emit_spec) : bool :=
  bool_decide (is_Some (acknowledge e)).

(** [_.groupBy(l, key)]: each group keeps the order of [l]. *)
Definition groupBy {A : Type} (key : A -> string) (l : list A)
  : gmap string (list A) :=
  foldr (fun x m => partial_alter (fun g => Some (x :: default [] g)) (key x) m)
        ∅ l.

(** [self.config.timeout || 10], times 1000. *)
Definition waitTime (cfg : config) : Z :=
  let seconds :=
    match cfg_timeout cfg with
    | Some n => if n =? 0 then 10 else n
    | None => 10
    end in
  seconds * 1000.

(** The [json] default of the acknowledge path. *)
Definition default_json (v : value) : value :=
  match v with
  | VObj fs =>
      if existsb (fun kv => String.eqb kv.1 "json") fs then v
      else VObj (fs ++ [("json", VStr "$.0")])
  | _ => v
  end.

(** [requiredResponses] of [f]: the array given, or the one response
    wrapped in an array. *)
Definition requiredResponses (e : emit_spec) : list response :=
  match emit_response e with
  | RespMany rs => rs
  | RespOne r => [r]
  | RespAbsent => []
  end.

Section Step.
Context `{Collaborators}.
Variable cfg : config.
Variable requestSpec : request_spec.

Definition render (ctx : context) (r : response) : response :=
  {| r_channel := template (r_channel r) ctx;
     r_data := template (r_data r) ctx;
     r_capture := template (r_capture r) ctx;
     r_match := template (r_match r) ctx |}.

Definition listen (ctx : context) (group : list response) : channel_state :=
  {| index := -1;
     responses := map (render ctx) group;
     requiredCount := Z.of_nat (length group);
     listening := true |}.

Definition idle (ctx : context) (log : list event) (now : Z) : step_state :=
  {| st_context := ctx; st_log := log; st_channels := ∅;
     requiredResponsesCount := 0; currentResponsesCount := 0;
     startedAt := now; st_timer := None; st_ack := false |}.

(** The function [f] of [step], for a step called at clock reading [now].
    [context.sockets[namespace]] is a stored client, a member inherited
    from [Object.prototype], or [undefined]; an inherited member passes the
    guard, and [f] throws when it calls its [transmit].  A step without
    response and acknowledge requirement reads the clock a second time
    right after transmitting. *)
Definition f (ctx : context) (now : Z) : outcome :=
  if truthy (think requestSpec) then ReturnedThink
  else
    match emit requestSpec with
    | None => Delegated
    | Some e =>
        let socketio := sockets ctx !! to_key (namespace e) in
        if negb (truthy (channel e)
                 && (bool_decide (is_Some socketio)
                     || inherited (to_key (namespace e)))) then
          Running (idle ctx
            [Emit_request; Emit_error (ErrString "invalid arguments")] now)
        else if negb (bool_decide (is_Some socketio)) then
          Threw [Emit_request]
        else
          let out_channel := template (channel e) ctx in
          let out_data := template (data e) ctx in
          if isResponseRequired e then
            let channelsResponses :=
              groupBy (fun r => to_key (r_channel r)) (requiredResponses e) in
            Running
              {| st_context := ctx;
                 st_log := [Emit_request; Transmit out_channel out_data false];
                 st_channels := listen ctx <$> channelsResponses;
                 requiredResponsesCount :=
                   map_fold (fun _ group n => n + Z.of_nat (length group)) 0
                            channelsResponses;
                 currentResponsesCount := 0;
                 startedAt := now;
                 st_timer := Some (waitTime cfg);
                 st_ack := false |}
          else if isAcknowledgeRequired e then
            Running
              {| st_context := ctx;
                 st_log := [Emit_request; Transmit out_channel out_data true];
                 st_channels := ∅;
                 requiredResponsesCount := 0; currentResponsesCount := 0;
                 startedAt := now; st_timer := None; st_ack := true |}
          else
            Running (idle ctx
              [Emit_request; Transmit out_channel out_data false;
               markEndTime ctx (clock_after now) now; Callback None] now)
    end.

(** The pre-validation hook of the listener.  [None]: the lookup
    [self.config.processor[...]] threw because there is no [processor]. *)
Definition run_hook (e : emit_spec) (ch : channel_state) (ctx : context)
    (payload : value) : option (bool * list event) :=
  if truthy (beforeResponse e) then
    match processor cfg with
    | None => None
    | Some fns =>
        match fns (to_key (beforeResponse e)) with
        | None => Some (true, [])
        | Some processFunc =>
            let indexed := at_index (responses ch) (index ch) in
            Some (truthy (processFunc requestSpec payload indexed ctx),
                  [HookCall (to_key (beforeResponse e)) payload indexed])
        end
    end
  else Some (true, []).

Definition set_channel (st : step_state) (c : string) (ch : channel_state)
    (count : Z) (ctx : context) (log : list event) : step_state :=
  {| st_context := ctx;
     st_log := st_log st ++ log;
     st_channels := <[c := ch]> (st_channels st);
     requiredResponsesCount := requiredResponsesCount st;
     currentResponsesCount := count;
     startedAt := startedAt st;
     st_timer := st_timer st;
     st_ack := st_ack st |}.

(** The loop of the listener of [c] is ended by an exception. *)
Definition end_listener (st : step_state) (c : string) (count : Z)
    (log : list event) : step_state :=
  {| st_context := st_context st;
     st_log := st_log st ++ log;
     st_channels := delete c (st_channels st);
     requiredResponsesCount := requiredResponsesCount st;
     currentResponsesCount := count;
     startedAt := startedAt st;
     st_timer := st_timer st;
     st_ack := st_ack st |}.

Definition advance (ch : channel_state) (i : Z) (keep : bool) : channel_state :=
  {| index := i; responses := responses ch;
     requiredCount := requiredCount ch; listening := keep |}.

(** One turn of the body of [for await (let data of socketio.receiver(channel))]
    for the listener of channel [c]. *)
Definition on_message (e : emit_spec) (st : step_state) (c : string)
    (ch : channel_state) (now : Z) (payload : value) : step_state :=
  let ctx := st_context st in
  match run_hook e ch ctx payload with
  | None =>
      (* the lookup of the hook threw: the loop ends *)
      end_listener st c (currentResponsesCount st) []
  | Some (false, calls) =>
      (* [beforeResponse] is falsy: on to the next message *)
      set_channel st c ch (currentResponsesCount st) ctx calls
  | Some (true, calls) =>
      let index' := index ch + 1 in
      let count' := currentResponsesCount st + 1 in
      match at_index (responses ch) index' with
      | None =>
          (* [processResponse] reads [response.data] of [undefined] and
             throws, after both counters were incremented: the loop ends *)
          end_listener st c count' calls
      | Some resp =>
          let '(emitted, (err, ctx')) := processResponse payload resp ctx in
          let failed := bool_decide (is_Some err) in
          let ended :=
            if failed then [] else [markEndTime ctx' now (startedAt st)] in
          let channel_done := (requiredCount ch - 1 =? index') || failed in
          let step_done :=
            (requiredResponsesCount st =? count') || failed in
          let closed1 := if channel_done then [CloseReceiver c] else [] in
          let closed2 :=
            if step_done then [CloseReceiver c; Callback err] else [] in
          set_channel st c
            (advance ch index'
               (listening ch && negb (channel_done || step_done)))
            count' ctx'
            (calls ++ [ProcessResponse c payload resp err] ++ emitted
                   ++ ended ++ closed1 ++ closed2)
      end
  end.

(** [ackCallback], called by the transport with the acknowledgement's
    arguments; it validates its [arguments] object.  Nothing in it tells a
    first call from a later one. *)
Definition on_acknowledgement (e : emit_spec) (st : step_state) (now : Z)
    (arguments : list value) : step_state :=
  let ctx := st_context st in
  match acknowledge e with
  | None => st
  | Some a =>
      let resp :=
        {| r_channel := VUndefined;
           r_data := default_json (template (r_data a) ctx);
           r_capture := default_json (template (r_capture a) ctx);
           r_match := default_json (template (r_match a) ctx) |} in
      let '(emitted, (err, ctx')) :=
        processResponse (VArguments arguments) resp ctx in
      let ended :=
        if bool_decide (is_Some err) then []
        else [markEndTime ctx' now (startedAt st)] in
      {| st_context := ctx';
         st_log := st_log st ++ emitted ++ ended ++ [Callback err];
         st_channels := st_channels st;
         requiredResponsesCount := requiredResponsesCount st;
         currentResponsesCount := currentResponsesCount st;
         startedAt := startedAt st;
         st_timer := st_timer st;
         st_ack := st_ack st |}
  end.

(** [responseTimeout], run once when the timer set by [setTimeout] fires. *)
Definition on_timeout (st : step_state) : step_state :=
  match st_timer st with
  | None => st
  | Some _ =>
      let fired :=
        if bool_decide (requiredResponsesCount st ≠ currentResponsesCount st)
        then [Emit_error (ErrString "response timeout");
              Callback (Some (ErrString "response timeout"))]
        else [] in
      {| st_context := st_context st;
         st_log := st_log st ++ fired;
         st_channels := st_channels st;
         requiredResponsesCount := requiredResponsesCount st;
         currentResponsesCount := currentResponsesCount st;
         startedAt := startedAt st;
         st_timer := None;
         st_ack := st_ack st |}
  end.

(** A message is taken by the listener of its channel as long as the
    loop of that listener has not been ended by an exception, also after
    the listener called [closeReceiver]. *)
Definition on_input (st : step_state) (i : input) : step_state :=
  match emit requestSpec with
  | None => st
  | Some e =>
      match i with
      | Message now c payload =>
          match st_channels st !! c with
          | Some ch => on_message e st c ch now payload
          | None => st
          end
      | Acknowledgement now arguments =>
          if st_ack st then on_acknowledgement e st now arguments else st
      | TimerFires => on_timeout st
      end
  end.

Definition exec (st : step_state) (inputs : list input) : step_state :=
  foldl on_input st inputs.

(** The input is not a message taken from the backlog of a receiver that
    was closed. *)
Definition in_time (st : step_state) (i : input) : bool :=
  match i with
  | Message _ c _ =>
      match st_channels st !! c with
      | Some ch => listening ch
      | None => true
      end
  | _ => true
  end.

(** No message of the run is taken from the backlog of a closed receiver. *)
Fixpoint timely (st : step_state) (inputs : list input) : bool :=
  match inputs with
  | [] => true
  | i :: rest => in_time st i && timely (on_input st i) rest
  end.

(** The step is an emit step with a channel, a stored client and a response
    requirement: [f] opens listeners, transmits and sets the timer. *)
Definition awaits_responses (ctx : context) : bool :=
  negb (truthy (think requestSpec)) &&
  match emit requestSpec with
  | Some e =>
      truthy (channel e)
      && bool_decide (is_Some (sockets ctx !! to_key (namespace e)))
      && isResponseRequired e
  | None => false
  end.

End Step.

(** ** The connection registry and [preStep] *)

Definition obj_fields (v : value) : list (string * value) :=
  match v with
  | VObj fs => fs
  | _ => []
  end.

Fixpoint set_field (k : string) (v : value) (fs : list (string * value))
  : list (string * value) :=
  match fs with
  | [] => [(k, v)]
  | (k', v') :: rest =>
      if String.eqb k k' then (k, v) :: rest
      else (k', v') :: set_field k v rest
  end.

(** [_.extend({}, a, b)] *)
Definition extend (a b : value) : value :=
  VObj (foldl (fun acc kv => set_field kv.1 kv.2 acc)
              (obj_fields a) (obj_fields b)).

(** What the new client reports on [socket.listener(...)]. *)
Inductive notification : Type :=
| Connect
| ConnectionError (e : value).

(** How a call of [loadContextSocket] returns: having called [cb] with the
    stored client, having called [cb] with the member of [Object.prototype]
    the namespace names, or with two listeners waiting on the new client. *)
Inductive connecting : Type :=
| Resolved (s : socket)
| Inherited
| Waiting (s : socket).

Section Registry.
Context `{Collaborators}.
Variable cfg : config.

Definition loadContextSocket (ns : string) (ctx : context)
  : context * connecting :=
  match sockets ctx !! ns with
  | Some s => (ctx, Resolved s)
  | None =>
      if inherited ns then (ctx, Inherited)
      else
      let socketioOpts :=
        template (js_or (default VUndefined (asyngular cfg)) (VObj [])) ctx in
      let options :=
        extend socketioOpts (js_or (default VUndefined (tls cfg)) (VObj [])) in
      let s := {| sock_options := options |} in
      ({| vars := vars ctx;
          sockets := <[ns := s]> (sockets ctx);
          _successCount := _successCount ctx;
          _uid := _uid ctx |},
       Waiting s)
  end.

(** One notification from a client whose listeners are waiting: what is
    written to the console, and the call of [cb] it causes, if any. *)
Definition on_notification (s : socket) (n : notification)
  : list event * option (option error * option socket) :=
  match n with
  | Connect => ([], Some (None, Some s))
  | ConnectionError e => ([ConsoleError e], None)
  end.

(** All calls of [cb] made by a call of [loadContextSocket] at clock
    reading [now], when the client then reports [ns], each with the clock
    reading at which it is handled.  The second argument of [cb] is the
    client, or something that is no client. *)
Definition cb_calls (now : Z) (c : connecting) (ns : list (Z * notification))
  : list (Z * (option error * option socket)) :=
  match c with
  | Resolved s => [(now, (None, Some s))]
  | Inherited => [(now, (None, None))]
  | Waiting s =>
      omap (fun tn => pair tn.1 <$> (on_notification s tn.2).2) ns
  end.

Definition console (c : connecting) (ns : list (Z * notification))
  : list event :=
  match c with
  | Resolved _ | Inherited => []
  | Waiting s => flat_map (fun tn => (on_notification s tn.2).1) ns
  end.

Definition with_namespace (requestSpec : request_spec) (ns : value)
  : request_spec :=
  {| think := think requestSpec;
     emit :=
       (fun e =>
          {| namespace := ns; channel := channel e; data := data e;
             emit_response := emit_response e; acknowledge := acknowledge e;
             beforeResponse := beforeResponse e; timeout := timeout e |})
       <$> emit requestSpec |}.

Definition error_message (e : error) : error :=
  match e with
  | ErrError m => ErrString m
  | _ => ErrExternal VUndefined
  end.

(** The function handed to [loadContextSocket] by [preStep], called at
    clock reading [now] with [err]; [ctx] is the scenario context as it is
    at that moment. *)
Definition preStep_cb (requestSpec : request_spec) (now : Z)
    (err : option error) (ctx : context) : outcome :=
  match err with
  | Some e =>
      Running (idle ctx [Emit_error (error_message e); Callback (Some e)] now)
  | None => f cfg requestSpec ctx now
  end.

(** [preStep], called at clock reading [now], when the client then reports
    [ns] (each with the clock reading at which it is handled): what is
    written to the console, and one start of the step for each call of
    [cb].  The context is one object, which [loadContextSocket] and the
    steps change: each start is a function of the context as it is when
    [cb] is called. *)
Definition preStep (requestSpec : request_spec) (ctx : context) (now : Z)
    (ns : list (Z * notification))
  : list event * list (context -> outcome) :=
  match emit requestSpec with
  | None => ([], [])
  | Some e =>
      let name := js_or (template (namespace e) ctx) (VStr "") in
      let requestSpec' := with_namespace requestSpec name in
      let '(_, c) := loadContextSocket (to_key name) ctx in
      (console c ns,
       map (fun call => preStep_cb requestSpec' call.1 call.2.1)
           (cb_calls now c ns))
  end.

End Registry.

(** ** Reading the log *)

Definition count (p : event -> bool) (log : list event) : Z :=
  Z.of_nat (length (List.filter p log)).

Definition is_callback (ev : event) : bool :=
  match ev with Callback _ => true | _ => false end.

Definition is_error_callback (ev : event) : bool :=
  match ev with Callback (Some _) => true | _ => false end.

Definition is_success_callback (ev : event) : bool :=
  match ev with Callback None => true | _ => false end.

Definition is_response (ev : event) : bool :=
  match ev with Emit_response _ _ _ => true | _ => false end.

Definition is_processed (ev : event) : bool :=
  match ev with ProcessResponse _ _ _ _ => true | _ => false end.

Definition is_valid (ev : event) : bool :=
  match ev with ProcessResponse _ _ _ None => true | _ => false end.

Definition is_failed (ev : event) : bool :=
  match ev with ProcessResponse _ _ _ (Some _) => true | _ => false end.

Definition is_transmit (ev : event) : bool :=
  match ev with Transmit _ _ _ => true | _ => false end.

(** Notifications and hook calls: events that count for nothing below. *)
Definition is_notice (ev : event) : bool :=
  match ev with
  | HookCall _ _ _ | Emit_error _ | Emit_match _ _ _ _ => true
  | _ => false
  end.

(** The expected responses the messages of channel [c] were validated
    against, oldest first. *)
Definition validated_on (c : string) (log : list event) : list response :=
  omap (fun ev =>
          match ev with
          | ProcessResponse c' _ r _ => if String.eqb c' c then Some r else None
          | _ => None
          end) log.

(** The latencies reported by ['response'] notifications, oldest first. *)
Definition latencies (log : list event) : list Z :=
  omap (fun ev => match ev with Emit_response d _ _ => Some d | _ => None end)
       log.

(** The receivers closed, oldest first. *)
Definition closed (log : list event) : list string :=
  omap (fun ev => match ev with CloseReceiver c => Some c | _ => None end) log.

(** ** Invariants of a step that waits for responses

    [in_order] and [tallied] hold in every run; [correlating] and
    [accounted] hold as long as no message is taken from the backlog of a
    closed receiver. *)

Definition total (g : channel_state -> Z) (m : gmap string channel_state) : Z :=
  map_fold (fun _ ch n => n + g ch) 0 m.

(** What the listener still waits for. *)
Definition missing (ch : channel_state) : Z :=
  requiredCount ch - (index ch + 1).

Definition channel_ok (ch : channel_state) : Prop :=
  -1 <= index ch /\ index ch < requiredCount ch /\
  Z.of_nat (length (responses ch)) = requiredCount ch /\
  (listening ch = true -> index ch + 1 < requiredCount ch).

Record correlating (st : step_state) : Prop := {
  cor_channels : forall c ch, st_channels st !! c = Some ch -> channel_ok ch;
  cor_missing :
    total missing (st_channels st)
    <= requiredResponsesCount st - currentResponsesCount st;
  cor_ack : st_ack st = false
}.

(** How the log accounts for the counters. *)
Record accounted (st : step_state) : Prop := {
  acc_processed : currentResponsesCount st = count is_processed (st_log st);
  acc_failed :
    count is_failed (st_log st) <= count is_error_callback (st_log st);
  acc_once :
    count is_error_callback (st_log st) = 0 ->
    count is_callback (st_log st) =
    (if bool_decide (currentResponsesCount st = requiredResponsesCount st)
     then 1 else 0);
  acc_response : count is_response (st_log st) = count is_valid (st_log st)
}.

Record tallied (st : step_state) : Prop := {
  tal_processed : count is_processed (st_log st) <= currentResponsesCount st;
  tal_failed :
    count is_failed (st_log st) <= count is_error_callback (st_log st);
  tal_response : count is_response (st_log st) = count is_valid (st_log st);
  tal_ack : st_ack st = false
}.

(** Every message validated on a channel was validated against the next
    expected response of the channel's group. *)
Definition in_order (groups : gmap string (list response)) (st : step_state)
  : Prop :=
  forall c,
    match st_channels st !! c with
    | Some ch =>
        groups !! c = Some (responses ch) /\
        Z.of_nat (length (responses ch)) = requiredCount ch /\
        validated_on c (st_log st) =
        take (Z.to_nat (index ch + 1)) (responses ch)
    | None =>
        validated_on c (st_log st) `prefix_of` default [] (groups !! c)
    end.




(** ** The timeout as the specification words it

    "Step-level override or scenario default, in seconds, converted to
    milliseconds", with a default of 10. *)
Definition spec_waitTime (cfg : config) (e : emit_spec) : Z :=
  match timeout e with
  | Some seconds => seconds * 1000
  | None => default 10 (cfg_timeout cfg) * 1000
  end.

(** ** Stand-ins for the collaborators, and sample steps *)

Module Demo.

Definition same (a b : value) : bool :=
  match a, b with
  | VNum x, VNum y => x =? y
  | VStr x, VStr y => String.eqb x y
  | _, _ => false
  end.

(** A capture/match facility for the samples: [match: "boom"] cannot be
    evaluated; any other [match] compares the body with the given value;
    [capture: k] stores the body under [k]. *)
Definition check (resp : response) (body : value) (ctx : context)
  : error + capture_result :=
  if same (r_match resp) (VStr "boom") then inl (ErrExternal (VStr "boom"))
  else
    inr {| captures :=
             match r_capture resp with
             | VStr k => [(k, body)]
             | _ => []
             end;
           matches :=
             if truthy (r_match resp) then
               [{| success := same body (r_match resp);
                   expected := r_match resp; got := body;
                   expression := VStr "$" |}]
             else [] |}.

Definition plain : Collaborators :=
  {| template := fun v _ => v;
     deepEqual := same;
     JSON_stringify := fun v => v;
     captureOrMatch := check;
     clock_after := fun t => t + 3 |}.

Definition client : socket := {| sock_options := VObj [] |}.

Definition user : context :=
  {| vars := ∅; sockets := {[ "" := client ]};
     _successCount := 0; _uid := VStr "u1" |}.

Definition stranger : context :=
  {| vars := ∅; sockets := ∅; _successCount := 0; _uid := VStr "u2" |}.

Definition expect (c : string) (d cap m : value) : response :=
  {| r_channel := VStr c; r_data := d; r_capture := cap; r_match := m |}.

Definition ask (rs : response_req) (before : value) (t : option Z)
  : request_spec :=
  {| think := VUndefined;
     emit := Some {| namespace := VStr ""; channel := VStr "ask";
                     data := VNum 1; emit_response := rs;
                     acknowledge := None; beforeResponse := before;
                     timeout := t |} |}.

Definition no_channel : request_spec :=
  {| think := VUndefined;
     emit := Some {| namespace := VStr ""; channel := VUndefined;
                     data := VNum 1; emit_response := RespAbsent;
                     acknowledge := None; beforeResponse := VUndefined;
                     timeout := None |} |}.

(** One answer on each of two channels. *)
Definition two_channels : request_spec :=
  ask (RespMany [expect "A" (VNum 1) VUndefined VUndefined;
                 expect "B" (VNum 2) VUndefined VUndefined])
      VUndefined None.

(** Two answers on one channel. *)
Definition two_answers : request_spec :=
  ask (RespMany [expect "A" (VNum 1) VUndefined VUndefined;
                 expect "A" (VNum 2) VUndefined VUndefined])
      VUndefined None.

(** One answer, with a step-level timeout of 5 seconds. *)
Definition one_answer : request_spec :=
  ask (RespOne (expect "A" (VNum 1) VUndefined VUndefined))
      VUndefined (Some 5).

(** One answer, screened by the hook ["screen"]. *)
Definition screened : request_spec :=
  ask (RespOne (expect "A" (VNum 1) VUndefined VUndefined))
      (VStr "screen") None.

Definition defaults : config :=
  {| cfg_timeout := None; processor := None;
     asyngular := None; tls := None |}.

Definition twenty_seconds : config :=
  {| cfg_timeout := Some 20; processor := None;
     asyngular := None; tls := None |}.

(** The hook accepts a message when it is handed an expected response. *)
Definition needs_expected : hook :=
  fun _ _ indexed _ => VBool (bool_decide (is_Some indexed)).

Definition accept_all : hook := fun _ _ _ _ => VBool true.

Definition with_hook (h : hook) : config :=
  {| cfg_timeout := None;
     processor :=
       Some (fun name => if String.eqb name "screen" then Some h else None);
     asyngular := None; tls := None |}.

(** The state a step is in after [f], or an idle state when [f] does not
    start one. *)
Definition started (o : outcome) : step_state :=
  match o with
  | Running st => st
  | _ => {| st_context := stranger; st_log := []; st_channels := ∅;
            requiredResponsesCount := 0; currentResponsesCount := 0;
            startedAt := 0; st_timer := None; st_ack := false |}
  end.

End Demo.

(** ** Reading objects, notifications and inputs *)

(** [obj[k]] on the fields of an object. *)
Definition get_field (k : string) (fs : list (string * value)) : option value :=
  snd <$> List.find (fun kv => String.eqb kv.1 k) fs.

Definition is_acknowledgement (i : input) : bool :=
  match i with Acknowledgement _ _ => true | _ => false end.

Definition is_invalid_arguments (ev : event) : bool :=
  match ev with
  | Emit_error (ErrString s) => String.eqb s "invalid arguments"
  | _ => false
  end.

(** ** More sample steps *)

Module Samples.

(** A step that asks for an acknowledgement carrying 7. *)
Definition acked : request_spec :=
  {| think := VUndefined;
     emit := Some {| namespace := VStr ""; channel := VStr "ask";
                     data := VNum 1; emit_response := RespAbsent;
                     acknowledge :=
                       Some (Demo.expect "" (VNum 7) VUndefined VUndefined);
                     beforeResponse := VUndefined;
                     timeout := None |} |}.

(** A step that asks for an acknowledgement, whatever it carries. *)
Definition acked_freely : request_spec :=
  {| think := VUndefined;
     emit := Some {| namespace := VStr ""; channel := VStr "ask";
                     data := VNum 1; emit_response := RespAbsent;
                     acknowledge :=
                       Some (Demo.expect "" VUndefined VUndefined VUndefined);
                     beforeResponse := VUndefined;
                     timeout := None |} |}.

(** A step that asks for a response and for an acknowledgement. *)
Definition answered_and_acked : request_spec :=
  {| think := VUndefined;
     emit := Some {| namespace := VStr ""; channel := VStr "ask";
                     data := VNum 1;
                     emit_response :=
                       RespOne (Demo.expect "A" (VNum 1) VUndefined VUndefined);
                     acknowledge :=
                       Some (Demo.expect "" (VNum 7) VUndefined VUndefined);
                     beforeResponse := VUndefined;
                     timeout := None |} |}.

(** A step with an empty array of responses. *)
Definition nothing_expected : request_spec :=
  Demo.ask (RespMany []) VUndefined None.

(** A step on a namespace that names a member of [Object.prototype]. *)
Definition inherited_name : request_spec :=
  {| think := VUndefined;
     emit := Some {| namespace := VStr "constructor"; channel := VStr "ask";
                     data := VNum 1; emit_response := RespAbsent;
                     acknowledge := None; beforeResponse := VUndefined;
                     timeout := None |} |}.

(** A response with a capture and a match rule. *)
Definition captured : response :=
  Demo.expect "A" VUndefined (VStr "seen") (VNum 3).

(** Transport options and TLS settings that both give [port]. *)
Definition secured : config :=
  {| cfg_timeout := None; processor := None;
     asyngular := Some (VObj [("port", VNum 80); ("path", VStr "/s")]);
     tls := Some (VObj [("port", VNum 443)]) |}.

End Samples.

(** * Properties *)

(** ** [processResponse] *)

Section ProcessResponseFacts.
Context `{Collaborators}.

Lemma processResponse_cases data resp ctx :
  let out := processResponse data resp ctx in
  (out.2.1 = Some (ErrString "data is not valid") /\ out.2.2 = ctx /\
   truthy (r_data resp) = true /\ deepEqual data (r_data resp) = false /\
   out.1 = [Emit_error (ErrString "data is not valid")])
  \/ (out = ([], (None, ctx)) /\
      truthy (r_capture resp) = false /\ truthy (r_match resp) = false)
  \/ ((truthy (r_capture resp) = true \/ truthy (r_match resp) = true) /\
      ((exists err, captureOrMatch resp (JSON_stringify data) ctx = inl err /\
                    out = ([Emit_error err], (Some err, ctx)))
       \/ (exists result,
             captureOrMatch resp (JSON_stringify data) ctx = inr result /\
             ((List.filter (fun v => negb (success v)) (matches result) <> [] /\
               out = ([Emit_error (ErrString "Failed match")],
                      (Some (ErrError "Failed match"), ctx)))
              \/ (List.filter (fun v => negb (success v)) (matches result) = [] /\
                  out = (map match_event (matches result),
                         (None,
                          {| vars := <["$" := JSON_stringify data]>
                                       (populate (captures result) (vars ctx));
                             sockets := sockets ctx;
                             _successCount := _successCount ctx + 1;
                             _uid := _uid ctx |}))))))).
Proof.
  unfold processResponse; cbv zeta.
  destruct (truthy (r_data resp) && negb (deepEqual data (r_data resp))) eqn:Hd.
  { left. apply andb_true_iff in Hd as [-> Hn].
    apply negb_true_iff in Hn. by rewrite Hn. }
  right.
  destruct (negb (truthy (r_capture resp)) && negb (truthy (r_match resp)))
    eqn:Hc.
  { left. apply andb_true_iff in Hc as [Hc Hm].
    apply negb_true_iff in Hc, Hm. by rewrite Hc, Hm. }
  right. split.
  { apply andb_false_iff in Hc as [Hc | Hc]; apply negb_false_iff in Hc; auto. }
  destruct (captureOrMatch resp (JSON_stringify data) ctx) as [err | result].
  { left. by exists err. }
  right. exists result. split; [done |].
  destruct (List.filter (fun v => negb (success v)) (matches result)) eqn:Hf.
  - right. by simpl.
  - left. split; [done |]. simpl length.
    destruct (Z.ltb_spec 0 (Z.of_nat (S (length l)))); [done | lia].
Qed.

(** An error handed to the callback is one of three, and comes with the
    context as it was given. *)
Lemma processResponse_error data resp ctx err :
  (processResponse data resp ctx).2.1 = Some err ->
  (processResponse data resp ctx).2.2 = ctx /\
  (err = ErrString "data is not valid"
   \/ captureOrMatch resp (JSON_stringify data) ctx = inl err
   \/ err = ErrError "Failed match").
Proof.
  intros Herr.
  destruct (processResponse_cases data resp ctx)
    as [(He & Hc & _) | [(Ho & _) | (_ & [(e & Hcm & Ho) | (r & Hcm & [(_ & Ho) | (_ & Ho)])])]];
    cbv zeta in *.
  - rewrite Hc. rewrite He in Herr. injection Herr as <-. auto.
  - rewrite Ho in Herr. discriminate.
  - rewrite Ho in *. simpl in *. injection Herr as <-. auto.
  - rewrite Ho in *. simpl in *. injection Herr as <-. auto.
  - rewrite Ho in Herr. discriminate.
Qed.


(** C10: without capture and match rules a successful [processResponse]
    emits nothing and hands back the context untouched; the context changes
    only where capture or match rules are given and all matches hold, and
    then [vars] gains the captures and [$], and [_successCount] grows by
    one. *)
Theorem processResponse_plain_success data resp ctx :
  (truthy (r_capture resp) = false -> truthy (r_match resp) = false ->
   (processResponse data resp ctx).2.1 = None ->
   processResponse data resp ctx = ([], (None, ctx)))
  /\ ((processResponse data resp ctx).2.2 <> ctx ->
      (truthy (r_capture resp) = true \/ truthy (r_match resp) = true) /\
      (processResponse data resp ctx).2.1 = None /\
      exists result,
        captureOrMatch resp (JSON_stringify data) ctx = inr result /\
        vars (processResponse data resp ctx).2.2 =
          <["$" := JSON_stringify data]>
            (populate (captures result) (vars ctx)) /\
        _successCount (processResponse data resp ctx).2.2 =
          _successCount ctx + 1).
Proof.
  destruct (processResponse_cases data resp ctx)
    as [(He & Hc & _) | [(Ho & Hcap & Hm) | (Hor & [(e & Hcm & Ho) | (r & Hcm & [(_ & Ho) | (_ & Ho)])])]];
    cbv zeta in *.
  - split; [intros _ _ Hn; congruence | intros Hne; congruence].
  - split; [done | rewrite Ho; simpl; congruence].
  - split; [| rewrite Ho; simpl; congruence].
    intros Hcap Hm. destruct Hor; congruence.
  - split; [| rewrite Ho; simpl; congruence].
    intros Hcap Hm. destruct Hor; congruence.
  - split; [intros Hcap Hm; destruct Hor; congruence |].
    intros _. rewrite Ho. simpl. split; [done |]. split; [done |].
    by exists r.
Qed.

End ProcessResponseFacts.


Lemma processResponse_plain_success_witness :
  processResponse (H := Demo.plain) (VNum 1)
    (Demo.expect "A" (VNum 1) VUndefined VUndefined) Demo.user
  = ([], (None, Demo.user)).
Proof.
  apply (processResponse_plain_success (H := Demo.plain) (VNum 1)
           (Demo.expect "A" (VNum 1) VUndefined VUndefined) Demo.user);
    reflexivity.
Defined.

(** ** Counting in logs, sums over channels, groups *)

Lemma count_app p l1 l2 : count p (l1 ++ l2) = count p l1 + count p l2.
Proof. unfold count. rewrite List.filter_app, length_app. lia. Qed.

Lemma count_nil p : count p [] = 0.
Proof. reflexivity. Qed.

Lemma count_cons p ev l :
  count p (ev :: l) = (if p ev then 1 else 0) + count p l.
Proof. unfold count. simpl. destruct (p ev); simpl length; lia. Qed.

Lemma count_nonneg p l : 0 <= count p l.
Proof. unfold count. lia. Qed.

Lemma count_none p l : (forall ev, ev ∈ l -> p ev = false) -> count p l = 0.
Proof.
  induction l as [| ev l IH]; intros Hall; [done |].
  rewrite count_cons, Hall, IH; [done | | left].
  intros ev' Hin. apply Hall. by right.
Qed.

Lemma count_processed l :
  count is_processed l = count is_valid l + count is_failed l.
Proof.
  induction l as [| ev l IH]; [done |].
  rewrite !count_cons, IH. destruct ev as [| | | | | | | | ? ? ? [e |] | |]; simpl; lia.
Qed.

Lemma count_callback l :
  count is_callback l = count is_success_callback l + count is_error_callback l.
Proof.
  induction l as [| ev l IH]; [done |].
  rewrite !count_cons, IH. destruct ev as [| | | | | | | | | [e |] |]; simpl; lia.
Qed.

Lemma validated_on_app c l1 l2 :
  validated_on c (l1 ++ l2) = validated_on c l1 ++ validated_on c l2.
Proof. unfold validated_on. apply omap_app. Qed.

Lemma closed_app l1 l2 : closed (l1 ++ l2) = closed l1 ++ closed l2.
Proof. unfold closed. apply omap_app. Qed.

Lemma total_empty g : total g ∅ = 0.
Proof. unfold total. apply map_fold_empty. Qed.

Lemma total_insert_fresh g (m : gmap string channel_state) c ch :
  m !! c = None -> total g (<[c := ch]> m) = total g m + g ch.
Proof.
  intros Hc. unfold total. rewrite map_fold_insert_L; [done | | done].
  intros. lia.
Qed.

Lemma total_insert g (m : gmap string channel_state) c ch ch' :
  m !! c = Some ch -> total g (<[c := ch']> m) = total g m - g ch + g ch'.
Proof.
  intros Hc.
  rewrite <- (insert_delete_id m c ch) at 2 by done.
  rewrite <- (insert_delete_eq m c ch').
  rewrite !total_insert_fresh by apply lookup_delete_eq. lia.
Qed.

Lemma total_delete g (m : gmap string channel_state) c ch :
  m !! c = Some ch -> total g (delete c m) = total g m - g ch.
Proof.
  intros Hc.
  rewrite <- (insert_delete_id m c ch) at 2 by done.
  rewrite total_insert_fresh by apply lookup_delete_eq. lia.
Qed.

Lemma total_le g1 g2 (m : gmap string channel_state) :
  (forall c ch, m !! c = Some ch -> g1 ch <= g2 ch) ->
  total g1 m <= total g2 m.
Proof.
  induction m as [| c ch m Hc IH] using map_ind; intros Hle.
  { rewrite !total_empty. lia. }
  rewrite !total_insert_fresh by done.
  assert (g1 ch <= g2 ch) by (apply (Hle c); apply lookup_insert_eq).
  assert (total g1 m <= total g2 m); [| lia].
  apply IH. intros c' ch' Hc'. apply (Hle c').
  rewrite lookup_insert_ne; [done | congruence].
Qed.

Lemma total_nonneg g (m : gmap string channel_state) :
  (forall c ch, m !! c = Some ch -> 0 <= g ch) -> 0 <= total g m.
Proof.
  induction m as [| c ch m Hc IH] using map_ind; intros Hpos.
  { rewrite total_empty. lia. }
  rewrite total_insert_fresh by done.
  assert (0 <= g ch) by (apply (Hpos c); apply lookup_insert_eq).
  assert (0 <= total g m); [| lia].
  apply IH. intros c' ch' Hc'. apply (Hpos c').
  rewrite lookup_insert_ne; [done | congruence].
Qed.

Lemma total_term g (m : gmap string channel_state) c ch :
  (forall c0 ch0, m !! c0 = Some ch0 -> 0 <= g ch0) ->
  m !! c = Some ch -> g ch <= total g m.
Proof.
  intros Hpos Hc.
  assert (0 <= total g (delete c m)).
  { apply total_nonneg. intros c0 ch0 H0.
    apply lookup_delete_Some in H0 as [_ H0]. by eapply Hpos. }
  rewrite (total_delete g m c ch Hc) in *. lia.
Qed.

Lemma total_fmap {A} (g : channel_state -> Z) (h : A -> channel_state)
    (m : gmap string A) :
  total g (h <$> m) = map_fold (fun _ x n => n + g (h x)) 0 m.
Proof. unfold total. by rewrite map_fold_fmap. Qed.

(** A group holds the elements with its key, in the order of the list. *)
Lemma groupBy_lookup {A} (key : A -> string) (l : list A) c :
  groupBy key l !! c =
  (if bool_decide (filter (fun x => key x = c) l = []) then None
   else Some (filter (fun x => key x = c) l)).
Proof.
  induction l as [| x l IH]; [done |].
  simpl. rewrite lookup_partial_alter.
  destruct (decide (key x = c)) as [Hk | Hk].
  - rewrite filter_cons_True by done.
    rewrite bool_decide_eq_false_2 by done.
    rewrite Hk, IH. by case_bool_decide as Hg; [rewrite Hg |].
  - rewrite filter_cons_False by done. apply IH.
Qed.

Lemma groupBy_nonempty {A} (key : A -> string) (l : list A) c g :
  groupBy key l !! c = Some g -> g <> [].
Proof.
  rewrite groupBy_lookup. case_bool_decide; [done |]. congruence.
Qed.

Lemma groupBy_total {A} (key : A -> string) (l : list A) :
  map_fold (fun _ (group : list A) n => n + Z.of_nat (length group)) 0
           (groupBy key l)
  = Z.of_nat (length l).
Proof.
  induction l as [| x l IH]; [apply map_fold_empty |].
  simpl groupBy.
  destruct (groupBy key l !! key x) as [g |] eqn:Hg.
  - replace (partial_alter _ (key x) (groupBy key l))
      with (<[key x := x :: g]> (delete (key x) (groupBy key l))).
    2:{ apply map_eq. intros c. rewrite lookup_partial_alter.
        destruct (decide (key x = c)) as [<- | Hne].
        - by rewrite lookup_insert_eq, Hg.
        - by rewrite lookup_insert_ne, lookup_delete_ne by done. }
    rewrite map_fold_insert_L; [| intros; lia | apply lookup_delete_eq].
    rewrite (map_fold_delete_L _ _ (key x) g (groupBy key l)) in IH;
      [| intros; lia | done].
    simpl length. lia.
  - replace (partial_alter _ (key x) (groupBy key l))
      with (<[key x := [x]]> (groupBy key l)).
    2:{ apply map_eq. intros c. rewrite lookup_partial_alter.
        destruct (decide (key x = c)) as [<- | Hne].
        - by rewrite lookup_insert_eq, Hg.
        - by rewrite lookup_insert_ne by done. }
    rewrite map_fold_insert_L; [| intros; lia | done].
    simpl length. lia.
Qed.

Lemma notices_count p l :
  (forall ev, is_notice ev = true -> p ev = false) ->
  Forall (fun ev => is_notice ev = true) l -> count p l = 0.
Proof.
  intros Hp Hl. apply count_none. intros ev Hin.
  apply Hp. by eapply (proj1 (Forall_forall _ l) Hl).
Qed.

Lemma notices_quiet l :
  Forall (fun ev => is_notice ev = true) l ->
  count is_processed l = 0 /\ count is_valid l = 0 /\ count is_failed l = 0 /\
  count is_callback l = 0 /\ count is_error_callback l = 0 /\
  count is_success_callback l = 0 /\ count is_response l = 0.
Proof.
  intros Hl.
  repeat split; (apply notices_count; [by intros [] | done]).
Qed.

Lemma notices_validated c l :
  Forall (fun ev => is_notice ev = true) l -> validated_on c l = [].
Proof.
  induction 1 as [| ev l Hev _ IH]; [done |].
  change (ev :: l) with ([ev] ++ l).
  rewrite validated_on_app, IH. by destruct ev.
Qed.

Lemma notices_closed l :
  Forall (fun ev => is_notice ev = true) l -> closed l = [].
Proof.
  induction 1 as [| ev l Hev _ IH]; [done |].
  change (ev :: l) with ([ev] ++ l).
  rewrite closed_app, IH. by destruct ev.
Qed.

Lemma markEndTime_delta ctx now started :
  markEndTime ctx now started = Emit_response (now - started) 0 (_uid ctx).
Proof.
  unfold markEndTime, hrtime. cbv zeta. simpl fst; simpl snd. f_equal.
  pose proof (Z.div_mod (now - started) 1000000000). lia.
Qed.

(** ** The listener: one message *)

Section StepFacts.
Context `{Collaborators}.
Variable cfg : config.
Variable requestSpec : request_spec.

Local Abbreviation notices := (Forall (fun ev => is_notice ev = true)).

Lemma processResponse_notices payload resp ctx :
  notices (processResponse payload resp ctx).1.
Proof.
  destruct (processResponse_cases payload resp ctx)
    as [(_ & _ & _ & _ & Ho) | [(Ho & _) | (_ & [(e & _ & Ho) | (r & _ & [(_ & Ho) | (_ & Ho)])])]];
    cbv zeta in *; rewrite Ho; simpl; repeat constructor.
  apply Forall_forall. intros ev Hin.
  apply list_elem_of_fmap in Hin as (v & -> & _). done.
Qed.

Lemma run_hook_notices e ch ctx payload b calls :
  run_hook cfg requestSpec e ch ctx payload = Some (b, calls) -> notices calls.
Proof.
  unfold run_hook. intros Hh.
  destruct (truthy (beforeResponse e)); [| by injection Hh as <- <-].
  destruct (processor cfg) as [fns |]; [| done].
  destruct (fns _); injection Hh as <- <-; repeat constructor.
Qed.

Lemma at_index_some {A} (l : list A) i :
  0 <= i < Z.of_nat (length l) -> is_Some (at_index l i).
Proof.
  intros Hi. unfold at_index.
  destruct (Z.ltb_spec i 0); [lia |].
  apply lookup_lt_is_Some. lia.
Qed.

Lemma on_message_cases e st c ch now payload :
  (run_hook cfg requestSpec e ch (st_context st) payload = None /\
   on_message cfg requestSpec e st c ch now payload =
   end_listener st c (currentResponsesCount st) [])
  \/ (exists calls,
        notices calls /\
        on_message cfg requestSpec e st c ch now payload =
        set_channel st c ch (currentResponsesCount st) (st_context st) calls)
  \/ (exists calls,
        notices calls /\
        at_index (responses ch) (index ch + 1) = None /\
        on_message cfg requestSpec e st c ch now payload =
        end_listener st c (currentResponsesCount st + 1) calls)
  \/ (exists calls resp emitted err ctx',
        notices calls /\ notices emitted /\
        at_index (responses ch) (index ch + 1) = Some resp /\
        processResponse payload resp (st_context st) = (emitted, (err, ctx')) /\
        on_message cfg requestSpec e st c ch now payload =
        set_channel st c
          (advance ch (index ch + 1)
             (listening ch
              && negb ((requiredCount ch - 1 =? index ch + 1)
                       || bool_decide (is_Some err)
                       || ((requiredResponsesCount st
                            =? currentResponsesCount st + 1)
                           || bool_decide (is_Some err)))))
          (currentResponsesCount st + 1) ctx'
          (calls ++ [ProcessResponse c payload resp err] ++ emitted
             ++ (if bool_decide (is_Some err) then []
                 else [markEndTime ctx' now (startedAt st)])
             ++ (if (requiredCount ch - 1 =? index ch + 1)
                    || bool_decide (is_Some err)
                 then [CloseReceiver c] else [])
             ++ (if (requiredResponsesCount st =? currentResponsesCount st + 1)
                    || bool_decide (is_Some err)
                 then [CloseReceiver c; Callback err] else []))).
Proof.
  unfold on_message. cbv zeta.
  destruct (run_hook cfg requestSpec e ch (st_context st) payload)
    as [[[] calls] |] eqn:Hh.
  - right. right.
    destruct (at_index (responses ch) (index ch + 1)) as [resp |] eqn:Hresp.
    + right.
      pose proof (processResponse_notices payload resp (st_context st)) as Hn.
      destruct (processResponse payload resp (st_context st))
        as [emitted [err ctx']] eqn:Hp.
      exists calls, resp, emitted, err, ctx'.
      eauto 10 using run_hook_notices.
    + left. exists calls. eauto using run_hook_notices.
  - right. left. exists calls. eauto using run_hook_notices.
  - by left.
Qed.

(** A listener that has not closed its receiver is handed an expected
    response. *)
Lemma on_message_shape e st c ch now payload :
  channel_ok ch -> listening ch = true ->
  (on_message cfg requestSpec e st c ch now payload =
   end_listener st c (currentResponsesCount st) [])
  \/ (exists calls,
        notices calls /\
        on_message cfg requestSpec e st c ch now payload =
        set_channel st c ch (currentResponsesCount st) (st_context st) calls)
  \/ (exists calls resp emitted err ctx',
        notices calls /\ notices emitted /\
        at_index (responses ch) (index ch + 1) = Some resp /\
        processResponse payload resp (st_context st) = (emitted, (err, ctx')) /\
        on_message cfg requestSpec e st c ch now payload =
        set_channel st c
          (advance ch (index ch + 1)
             (negb ((requiredCount ch - 1 =? index ch + 1)
                    || bool_decide (is_Some err)
                    || ((requiredResponsesCount st
                         =? currentResponsesCount st + 1)
                        || bool_decide (is_Some err)))))
          (currentResponsesCount st + 1) ctx'
          (calls ++ [ProcessResponse c payload resp err] ++ emitted
             ++ (if bool_decide (is_Some err) then []
                 else [markEndTime ctx' now (startedAt st)])
             ++ (if (requiredCount ch - 1 =? index ch + 1)
                    || bool_decide (is_Some err)
                 then [CloseReceiver c] else [])
             ++ (if (requiredResponsesCount st =? currentResponsesCount st + 1)
                    || bool_decide (is_Some err)
                 then [CloseReceiver c; Callback err] else []))).
Proof.
  intros (Hlo & Hhi & Hlen & Hopen) Hl. specialize (Hopen Hl).
  destruct (on_message_cases e st c ch now payload)
    as [[_ Ho] | [Ho | [(calls & _ & Hat & _) | Ho]]]; auto.
  - destruct (at_index_some (responses ch) (index ch + 1)) as [resp Hresp];
      [lia | congruence].
  - rewrite Hl in Ho. auto.
Qed.

Lemma missing_nonneg st c ch :
  correlating st -> st_channels st !! c = Some ch -> 0 <= missing ch.
Proof.
  intros Hcor Hc. destruct (cor_channels st Hcor c ch Hc) as (_ & ? & _).
  unfold missing. lia.
Qed.

Lemma current_lt_required st c ch :
  correlating st -> st_channels st !! c = Some ch -> listening ch = true ->
  currentResponsesCount st < requiredResponsesCount st.
Proof.
  intros Hcor Hc Hl. pose proof (cor_missing st Hcor) as Hmiss.
  assert (missing ch <= total missing (st_channels st)).
  { apply total_term with c; [| done].
    intros c0 ch0 H0. by eapply missing_nonneg. }
  destruct (cor_channels st Hcor c ch Hc) as (_ & _ & _ & Hopen).
  specialize (Hopen Hl). unfold missing in *. lia.
Qed.

Lemma on_message_correlating e st c ch now payload :
  correlating st -> st_channels st !! c = Some ch -> listening ch = true ->
  correlating (on_message cfg requestSpec e st c ch now payload).
Proof.
  intros Hcor Hc Hl. pose proof Hcor as [Hch Hmiss Hack].
  pose proof (Hch c ch Hc) as Hok.
  pose proof (missing_nonneg st c ch Hcor Hc) as Hpos.
  pose proof Hok as (Hlo & Hhi & Hlen & Hopen). specialize (Hopen Hl).
  destruct (on_message_shape e st c ch now payload Hok Hl)
    as [-> | [(calls & _ & ->)
       | (calls & resp & emitted & err & ctx' & _ & _ & _ & _ & ->)]].
  - constructor; simpl.
    + intros c0 ch0 H0. apply lookup_delete_Some in H0 as [_ H0]. by eapply Hch.
    + rewrite (total_delete _ _ _ _ Hc). lia.
    + done.
  - constructor; simpl.
    + intros c0 ch0. rewrite lookup_insert. case_decide.
      * by intros [= <-].
      * apply Hch.
    + rewrite (total_insert _ _ _ _ _ Hc). lia.
    + done.
  - constructor; simpl.
    + intros c0 ch0. rewrite lookup_insert. case_decide; [| apply Hch].
      intros [= <-]. unfold channel_ok. simpl.
      split; [lia |]. split; [lia |]. split; [done |].
      intros Hkeep. apply negb_true_iff in Hkeep.
      apply orb_false_iff in Hkeep as [Hkeep _].
      apply orb_false_iff in Hkeep as [Hkeep _].
      apply Z.eqb_neq in Hkeep. lia.
    + rewrite (total_insert _ _ _ _ _ Hc).
      match goal with
      | |- context [missing (advance ?a ?i ?k)] =>
          assert (missing (advance a i k) = missing ch - 1)
            by (unfold missing; simpl; lia)
      end.
      lia.
    + done.
Qed.

Lemma on_message_accounted e st c ch now payload :
  correlating st -> accounted st ->
  st_channels st !! c = Some ch -> listening ch = true ->
  accounted (on_message cfg requestSpec e st c ch now payload).
Proof.
  intros Hcor [Hpr Hfl Honce Hrs] Hc Hl.
  pose proof (current_lt_required st c ch Hcor Hc Hl) as Hlt.
  pose proof (cor_channels st Hcor c ch Hc) as Hok.
  destruct (on_message_shape e st c ch now payload Hok Hl)
    as [-> | [(calls & Hn & ->)
       | (calls & resp & emitted & err & ctx' & Hn & Hm & _ & _ & ->)]].
  - constructor; simpl; rewrite ?app_nil_r; done.
  - destruct (notices_quiet calls Hn) as (? & ? & ? & ? & ? & ? & ?).
    constructor; simpl; rewrite ?count_app.
    + lia.
    + lia.
    + intros Hq. rewrite <- Honce; lia.
    + lia.
  - rewrite bool_decide_eq_false_2 in Honce by lia.
    destruct (notices_quiet calls Hn) as (? & ? & ? & ? & ? & ? & ?).
    destruct (notices_quiet emitted Hm) as (? & ? & ? & ? & ? & ? & ?).
    pose proof (count_nonneg is_error_callback (st_log st)).
    constructor; simpl; rewrite ?count_app, ?count_cons, ?markEndTime_delta.
    all: destruct err as [er |];
      [rewrite bool_decide_eq_true_2 by eauto
      | rewrite bool_decide_eq_false_2 by (by intros [? ?])];
      rewrite ?orb_true_r, ?orb_false_r; simpl.
    all: destruct (requiredCount ch - 1 =? index ch + 1);
      destruct (Z.eqb_spec (requiredResponsesCount st)
                           (currentResponsesCount st + 1));
      simpl; rewrite ?count_app, ?count_cons, ?count_nil; simpl; try lia.
    all: intros Hq;
      first [rewrite bool_decide_eq_true_2 by lia
            | rewrite bool_decide_eq_false_2 by lia]; lia.
Qed.

(** What holds of the counters and the log in any run. *)
Lemma on_message_tallied e st c ch now payload :
  tallied st -> tallied (on_message cfg requestSpec e st c ch now payload).
Proof.
  intros [Hpr Hfl Hrs Hack].
  destruct (on_message_cases e st c ch now payload)
    as [[_ ->] | [(calls & Hn & ->) | [(calls & Hn & _ & ->)
       | (calls & resp & emitted & err & ctx' & Hn & Hm & _ & _ & ->)]]].
  - constructor; simpl; rewrite ?app_nil_r; done.
  - destruct (notices_quiet calls Hn) as (? & ? & ? & ? & ? & ? & ?).
    constructor; simpl; rewrite ?count_app; first [lia | done].
  - destruct (notices_quiet calls Hn) as (? & ? & ? & ? & ? & ? & ?).
    constructor; simpl; rewrite ?count_app; first [lia | done].
  - destruct (notices_quiet calls Hn) as (? & ? & ? & ? & ? & ? & ?).
    destruct (notices_quiet emitted Hm) as (? & ? & ? & ? & ? & ? & ?).
    constructor; simpl; rewrite ?count_app, ?count_cons, ?markEndTime_delta;
      [| | | done].
    all: destruct err as [er |];
      [rewrite bool_decide_eq_true_2 by eauto
      | rewrite bool_decide_eq_false_2 by (by intros [? ?])];
      rewrite ?orb_true_r, ?orb_false_r; simpl.
    all: destruct (requiredCount ch - 1 =? index ch + 1);
      destruct (requiredResponsesCount st =? currentResponsesCount st + 1);
      simpl; rewrite ?count_app, ?count_cons, ?count_nil; simpl; lia.
Qed.

Lemma validated_on_one c0 c payload resp err :
  validated_on c0 [ProcessResponse c payload resp err] =
  if String.eqb c c0 then [resp] else [].
Proof. unfold validated_on. simpl. by destruct (String.eqb c c0). Qed.

Lemma take_next {A} (l : list A) i x :
  at_index l (i + 1) = Some x ->
  take (Z.to_nat (i + 1)) l ++ [x] = take (Z.to_nat (i + 1 + 1)) l.
Proof.
  unfold at_index. destruct (Z.ltb_spec (i + 1) 0); [done |]. intros Hx.
  replace (Z.to_nat (i + 1 + 1)) with (S (Z.to_nat (i + 1))) by lia.
  by rewrite (take_S_r _ _ _ Hx).
Qed.

Lemma end_listener_in_order groups st c ch count calls :
  in_order groups st -> st_channels st !! c = Some ch -> notices calls ->
  in_order groups (end_listener st c count calls).
Proof.
  intros Hord Hc Hn c0. specialize (Hord c0).
  unfold end_listener. cbn [st_log st_channels].
  rewrite validated_on_app, (notices_validated c0 calls Hn), app_nil_r.
  destruct (decide (c = c0)) as [<- | Hne].
  - rewrite lookup_delete_eq. rewrite Hc in Hord.
    destruct Hord as (-> & _ & ->). apply prefix_take.
  - by rewrite lookup_delete_ne.
Qed.

Lemma on_message_in_order groups e st c ch now payload :
  in_order groups st -> st_channels st !! c = Some ch ->
  in_order groups (on_message cfg requestSpec e st c ch now payload).
Proof.
  intros Hord Hc.
  destruct (on_message_cases e st c ch now payload)
    as [[_ ->] | [(calls & Hn & ->) | [(calls & Hn & _ & ->)
       | (calls & resp & emitted & err & ctx' & Hn & Hm & Hat & _ & ->)]]].
  - by eapply end_listener_in_order.
  - intros c0. specialize (Hord c0).
    unfold set_channel; cbn [st_log st_channels].
    rewrite lookup_insert, validated_on_app, (notices_validated c0 calls Hn).
    rewrite app_nil_r. case_decide as Hcc; [| done].
    subst c0. by rewrite Hc in Hord.
  - by eapply end_listener_in_order.
  - intros c0. specialize (Hord c0).
    unfold set_channel; cbn [st_log st_channels].
    rewrite lookup_insert; rewrite !validated_on_app;
    rewrite (notices_validated c0 calls Hn).
    rewrite (notices_validated c0 emitted Hm), validated_on_one.
    assert (Hrest :
               validated_on c0
                 ((if bool_decide (is_Some err) then []
                   else [markEndTime ctx' now (startedAt st)]) ++
                  (if (requiredCount ch - 1 =? index ch + 1)
                      || bool_decide (is_Some err)
                   then [CloseReceiver c] else []) ++
                  (if (requiredResponsesCount st
                       =? currentResponsesCount st + 1)
                      || bool_decide (is_Some err)
                   then [CloseReceiver c; Callback err] else [])) = []).
    { rewrite markEndTime_delta.
      by destruct (bool_decide _), (_ =? _), (_ =? _). }
    rewrite <- !validated_on_app, Hrest, !app_nil_r.
    cbn [app]. case_decide as Hcc.
    + subst c0. rewrite Hc in Hord. destruct Hord as (Hg & Hlen & Hv).
      rewrite String.eqb_refl. simpl. split; [done |]. split; [done |].
      rewrite Hv. by apply take_next.
    + destruct (String.eqb_spec c c0); [done |]. by rewrite app_nil_r.
Qed.

(** ** The listener and the timer: any run *)

Lemma on_input_general groups st i :
  tallied st /\ in_order groups st ->
  tallied (on_input cfg requestSpec st i) /\
  in_order groups (on_input cfg requestSpec st i).
Proof.
  intros (Htal & Hord). unfold on_input.
  destruct (emit requestSpec) as [e |]; [| done].
  destruct i as [now c payload | now arguments |].
  - destruct (st_channels st !! c) as [ch |] eqn:Hc; [| done].
    split; [by apply on_message_tallied | by apply on_message_in_order].
  - by rewrite (tal_ack st Htal).
  - unfold on_timeout. destruct (st_timer st); [| done].
    destruct Htal as [Hpr Hfl Hrs Hack].
    split.
    + pose proof (count_nonneg is_error_callback (st_log st)).
      constructor;
        cbn [st_log currentResponsesCount requiredResponsesCount st_ack];
        [| | | done];
        case_bool_decide;
        rewrite ?count_app, ?count_cons, ?count_nil; simpl; lia.
    + intros c0. specialize (Hord c0).
      cbn [st_log st_channels]. rewrite validated_on_app.
      assert (Hq : forall b : bool,
                 validated_on c0
                   (if b then [Emit_error (ErrString "response timeout");
                               Callback (Some (ErrString "response timeout"))]
                    else []) = []) by (by intros []).
      by rewrite Hq, app_nil_r.
Qed.

Lemma exec_general groups inputs st :
  tallied st /\ in_order groups st ->
  tallied (exec cfg requestSpec st inputs) /\
  in_order groups (exec cfg requestSpec st inputs).
Proof.
  revert st. induction inputs as [| i inputs IH]; intros st Hst; [done |].
  apply IH. by apply on_input_general.
Qed.

(** ** The listener and the timer: runs without backlog *)

Lemma on_input_sound st i :
  in_time st i = true ->
  correlating st /\ accounted st ->
  correlating (on_input cfg requestSpec st i) /\
  accounted (on_input cfg requestSpec st i).
Proof.
  intros Htime (Hcor & Hacc). unfold on_input.
  destruct (emit requestSpec) as [e |]; [| done].
  destruct i as [now c payload | now arguments |].
  - simpl in Htime.
    destruct (st_channels st !! c) as [ch |] eqn:Hc; [| done].
    split; [by apply on_message_correlating | by apply on_message_accounted].
  - by rewrite (cor_ack st Hcor).
  - unfold on_timeout. destruct (st_timer st); [| done].
    destruct Hcor as [Hch Hmiss Hack].
    destruct Hacc as [Hpr Hfl Honce Hrs].
    split; [by constructor |].
    destruct (decide (requiredResponsesCount st ≠ currentResponsesCount st))
      as [Hne | Heq];
      [rewrite (bool_decide_eq_true_2 _ Hne)
      | rewrite (bool_decide_eq_false_2 _ Heq)].
    + pose proof (count_nonneg is_error_callback (st_log st)).
      constructor;
        cbn [st_log currentResponsesCount requiredResponsesCount];
        rewrite ?count_app, ?count_cons, ?count_nil; simpl; lia.
    + rewrite app_nil_r. by constructor.
Qed.

Lemma exec_sound inputs st :
  timely cfg requestSpec st inputs = true ->
  correlating st /\ accounted st ->
  correlating (exec cfg requestSpec st inputs) /\
  accounted (exec cfg requestSpec st inputs).
Proof.
  revert st. induction inputs as [| i inputs IH]; intros st Ht Hst; [done |].
  simpl in Ht. apply andb_true_iff in Ht as [Hi Ht].
  apply IH; [done |]. by apply on_input_sound.
Qed.






(** ** How [f] starts a step that waits for responses *)

Lemma f_awaits ctx now :
  awaits_responses requestSpec ctx = true ->
  exists e,
    emit requestSpec = Some e /\ isResponseRequired e = true /\
    f cfg requestSpec ctx now =
    Running
      {| st_context := ctx;
         st_log := [Emit_request;
                    Transmit (template (channel e) ctx)
                             (template (data e) ctx) false];
         st_channels :=
           listen ctx
           <$> groupBy (fun r => to_key (r_channel r)) (requiredResponses e);
         requiredResponsesCount :=
           map_fold (fun _ (group : list response) n =>
                       n + Z.of_nat (length group)) 0
             (groupBy (fun r => to_key (r_channel r)) (requiredResponses e));
         currentResponsesCount := 0;
         startedAt := now;
         st_timer := Some (waitTime cfg);
         st_ack := false |}.
Proof.
  unfold awaits_responses, f. intros Ha.
  apply andb_true_iff in Ha as [Hth Ha]. apply negb_true_iff in Hth.
  rewrite Hth. destruct (emit requestSpec) as [e |]; [| done].
  apply andb_true_iff in Ha as [Ha Hreq].
  apply andb_true_iff in Ha as [Hch Hs].
  rewrite Hch, Hs, Hreq. simpl. by exists e.
Qed.


Lemma requiredResponses_nonempty e :
  isResponseRequired e = true -> 1 <= Z.of_nat (length (requiredResponses e)).
Proof.
  unfold isResponseRequired, requiredResponses.
  destruct (emit_response e) as [| r | rs]; [done | simpl; lia |].
  intros Hne. apply negb_true_iff, bool_decide_eq_false in Hne.
  destruct rs; [done | simpl; lia].
Qed.

Lemma f_sound ctx now e st :
  awaits_responses requestSpec ctx = true ->
  emit requestSpec = Some e ->
  f cfg requestSpec ctx now = Running st ->
  correlating st /\ accounted st /\ tallied st /\
  in_order (map (render ctx)
            <$> groupBy (fun r => to_key (r_channel r)) (requiredResponses e))
           st /\
  requiredResponsesCount st = Z.of_nat (length (requiredResponses e)) /\
  st_context st = ctx /\ startedAt st = now /\
  st_timer st = Some (waitTime cfg).
Proof.
  intros Ha He Hf.
  destruct (f_awaits ctx now Ha) as (e' & He' & Hreq & Hf').
  rewrite He in He'. injection He' as <-.
  rewrite Hf in Hf'. injection Hf' as ->.
  pose proof (requiredResponses_nonempty e Hreq) as Hone.
  set (groups := groupBy _ (requiredResponses e)).
  assert (Hlook : forall c ch,
             (listen ctx <$> groups) !! c = Some ch ->
             exists g, groups !! c = Some g /\ g <> [] /\ ch = listen ctx g).
  { intros c ch. rewrite lookup_fmap.
    destruct (groups !! c) as [g |] eqn:Hg; [| done].
    intros [= <-]. exists g. split; [done |]. split; [| done].
    by eapply groupBy_nonempty. }
  split; [| split; [| split; [| split]]].
  - constructor; cbn [st_channels requiredResponsesCount
                      currentResponsesCount st_ack]; [| | done].
    + intros c ch Hc. destruct (Hlook c ch Hc) as (g & _ & Hg & ->).
      unfold channel_ok, listen. simpl. rewrite length_map.
      destruct g; [done |]. simpl length. lia.
    + apply Z.le_trans with (total requiredCount (listen ctx <$> groups)).
      * apply total_le. intros c ch Hc.
        destruct (Hlook c ch Hc) as (g & _ & _ & ->).
        unfold missing. simpl. lia.
      * rewrite total_fmap. simpl. lia.
  - constructor; cbn [st_log currentResponsesCount requiredResponsesCount];
      try done.
    intros _. unfold groups. rewrite groupBy_total.
    rewrite bool_decide_eq_false_2 by lia. done.
  - constructor; cbn [st_log currentResponsesCount st_ack]; done.
  - intros c. cbn [st_channels st_log]. rewrite !lookup_fmap.
    destruct (groups !! c); simpl; [| apply prefix_nil].
    by rewrite length_map.
  - cbn. unfold groups. by rewrite groupBy_total.
Qed.

End StepFacts.

(** ** The response correlator *)

Section Correlator.
Context `{Collaborators}.
Variable cfg : config.
Variable requestSpec : request_spec.

Lemma on_input_constants st i :
  requiredResponsesCount (on_input cfg requestSpec st i)
  = requiredResponsesCount st /\
  startedAt (on_input cfg requestSpec st i) = startedAt st.
Proof.
  unfold on_input. destruct (emit requestSpec) as [e |]; [| done].
  destruct i as [now c payload | now arguments |].
  - destruct (st_channels st !! c) as [ch |]; [| done].
    unfold on_message. cbv zeta.
    destruct (run_hook _ _ _ _ _ _) as [[[] calls] |]; [| done | done].
    destruct (at_index _ _); [| done].
    by destruct (processResponse _ _ _) as [emitted [err ctx']].
  - destruct (st_ack st); [| done].
    unfold on_acknowledgement. destruct (acknowledge e); [| done].
    by destruct (processResponse _ _ _) as [emitted [err ctx']].
  - unfold on_timeout. by destruct (st_timer st).
Qed.

Lemma exec_constants inputs st :
  requiredResponsesCount (exec cfg requestSpec st inputs)
  = requiredResponsesCount st /\
  startedAt (exec cfg requestSpec st inputs) = startedAt st.
Proof.
  revert st. induction inputs as [| i inputs IH]; intros st; [done |].
  simpl. destruct (IH (on_input cfg requestSpec st i)) as [-> ->].
  apply on_input_constants.
Qed.





(** C2 (amended): the global required count is the sum of the per-channel
    counts, which is the number of responses declared, and each channel's
    count is the number declared for it.  The global received counter counts
    every message handed to validation, valid or not: it is never below
    their number, and equals it as long as no listener takes a message
    after it closed its receiver.  In such a run in which no callback has
    been called with an error all of them were valid, and success has been
    declared (once) exactly when their number has reached the required
    count, in whatever order the channels delivered.  In any run the
    messages of a channel are validated against the responses declared for
    that channel, in declaration order. *)
Theorem success_when_all_arrive ctx now e st0 inputs :
  awaits_responses requestSpec ctx = true ->
  emit requestSpec = Some e ->
  f cfg requestSpec ctx now = Running st0 ->
  let st := exec cfg requestSpec st0 inputs in
  let declared c :=
    filter (fun r => to_key (r_channel r) = c) (requiredResponses e) in
  requiredResponsesCount st = total requiredCount (st_channels st0) /\
  requiredResponsesCount st = Z.of_nat (length (requiredResponses e)) /\
  (forall c ch, st_channels st !! c = Some ch ->
                requiredCount ch = Z.of_nat (length (declared c))) /\
  count is_valid (st_log st) + count is_failed (st_log st)
  <= currentResponsesCount st /\
  (timely cfg requestSpec st0 inputs = true ->
   currentResponsesCount st
   = count is_valid (st_log st) + count is_failed (st_log st) /\
   (count is_error_callback (st_log st) = 0 ->
    count is_valid (st_log st) = currentResponsesCount st /\
    count is_success_callback (st_log st) =
    (if bool_decide (count is_valid (st_log st) = requiredResponsesCount st)
     then 1 else 0))) /\
  (forall c, validated_on c (st_log st)
             `prefix_of` map (render ctx) (declared c)).
Proof.
  intros Ha He Hf st declared.
  destruct (f_sound cfg requestSpec ctx now e st0 Ha He Hf)
    as (Hcor & Hacc & Htal & Hord & Hlen & _).
  destruct (exec_general cfg requestSpec _ inputs st0 (conj Htal Hord))
    as (Htal1 & Hord1).
  fold st in Htal1, Hord1.
  assert (Hdeclared : forall c,
             default []
               ((map (render ctx)
                 <$> groupBy (fun r => to_key (r_channel r))
                             (requiredResponses e)) !! c)
             = map (render ctx) (declared c)).
  { intros c. rewrite lookup_fmap, groupBy_lookup. fold (declared c).
    case_bool_decide as Hd; [by rewrite Hd | done]. }
  assert (Hgroup : forall c ch,
             st_channels st !! c = Some ch ->
             responses ch = map (render ctx) (declared c) /\
             Z.of_nat (length (responses ch)) = requiredCount ch /\
             validated_on c (st_log st)
             = take (Z.to_nat (index ch + 1)) (responses ch)).
  { intros c ch Hc. specialize (Hord1 c). rewrite Hc in Hord1.
    destruct Hord1 as (Hg & Hn & Hv). split; [| done].
    rewrite <- Hdeclared, Hg. done. }
  assert (Hreq : requiredResponsesCount st = requiredResponsesCount st0).
  { unfold st. by rewrite (proj1 (exec_constants inputs st0)). }
  split.
  { rewrite Hreq.
    destruct (f_awaits cfg requestSpec ctx now Ha) as (e' & _ & _ & Hf').
    rewrite Hf in Hf'. injection Hf' as ->.
    cbn [requiredResponsesCount st_channels]. by rewrite total_fmap. }
  split; [by rewrite Hreq |].
  split.
  { intros c ch Hc. destruct (Hgroup c ch Hc) as (Hr & <- & _).
    by rewrite Hr, length_map. }
  split.
  { rewrite <- count_processed. apply Htal1. }
  split.
  - intros Ht.
    destruct (exec_sound cfg requestSpec inputs st0 Ht (conj Hcor Hacc))
      as (Hcor1 & Hacc1).
    fold st in Hcor1, Hacc1.
    pose proof (acc_processed _ Hacc1) as Hp.
    rewrite count_processed in Hp. split; [done |].
    intros Hquiet.
    pose proof (acc_failed _ Hacc1) as Hfl.
    pose proof (acc_once _ Hacc1 Hquiet) as Honce.
    pose proof (count_nonneg is_failed (st_log st)).
    rewrite count_callback in Honce.
    assert (Hv : count is_valid (st_log st) = currentResponsesCount st) by lia.
    split; [done |]. rewrite Hv. lia.
  - intros c. rewrite <- Hdeclared. specialize (Hord1 c).
    destruct (st_channels st !! c) as [ch |] eqn:Hc; [| done].
    destruct Hord1 as (-> & _ & ->). apply prefix_take.
Qed.

(** C3 (amended): when a message handed to validation fails it, the
    callback is called with that error and the receiver of the channel the
    message arrived on is closed (twice); the context is unchanged; the
    listeners of the step's other channels are left as they were. *)
Theorem validation_failure_closes_its_channel
    e st c ch now payload calls resp emitted err ctx' :
  emit requestSpec = Some e ->
  st_channels st !! c = Some ch -> listening ch = true ->
  run_hook cfg requestSpec e ch (st_context st) payload = Some (true, calls) ->
  at_index (responses ch) (index ch + 1) = Some resp ->
  processResponse payload resp (st_context st) = (emitted, (Some err, ctx')) ->
  let st' := on_input cfg requestSpec st (Message now c payload) in
  st_log st' =
    st_log st ++ calls ++ [ProcessResponse c payload resp (Some err)]
           ++ emitted ++ [CloseReceiver c; CloseReceiver c; Callback (Some err)]
  /\ closed (st_log st') = closed (st_log st) ++ [c; c]
  /\ (exists ch', st_channels st' !! c = Some ch' /\ listening ch' = false)
  /\ (forall c', c' <> c -> st_channels st' !! c' = st_channels st !! c')
  /\ st_context st' = st_context st.
Proof.
  intros He Hc Hl Hh Hat Hp st'.
  assert (Hst' : st' =
    set_channel st c (advance ch (index ch + 1) false)
      (currentResponsesCount st + 1) ctx'
      (calls ++ [ProcessResponse c payload resp (Some err)] ++ emitted
         ++ [CloseReceiver c; CloseReceiver c; Callback (Some err)])).
  { unfold st', on_input. rewrite He, Hc. unfold on_message. cbv zeta.
    rewrite Hh, Hat, Hp.
    rewrite bool_decide_eq_true_2 by eauto.
    by rewrite !orb_true_r, andb_false_r. }
  pose proof (processResponse_error payload resp (st_context st) err) as Hctx.
  rewrite Hp in Hctx. destruct (Hctx eq_refl) as [Hsame _]. simpl in Hsame.
  rewrite Hst'. unfold set_channel. cbn [st_log st_channels st_context].
  split; [done |]. split.
  { rewrite !closed_app.
    rewrite (notices_closed calls) by by eapply run_hook_notices.
    pose proof (processResponse_notices payload resp (st_context st)) as Hn.
    rewrite Hp in Hn. by rewrite (notices_closed emitted Hn). }
  split; [exists (advance ch (index ch + 1) false);
          by rewrite lookup_insert_eq |].
  split; [| done].
  intros c' Hne. by rewrite lookup_insert_ne.
Qed.

(** A message the hook turns down is ignored: the channel's index, the
    received counter and the context stay as they are, and only the hook
    call is seen. *)
Lemma hook_rejection_ignores_message e st c ch now payload calls :
  emit requestSpec = Some e ->
  st_channels st !! c = Some ch ->
  run_hook cfg requestSpec e ch (st_context st) payload = Some (false, calls) ->
  let st' := on_input cfg requestSpec st (Message now c payload) in
  st_channels st' = st_channels st /\
  currentResponsesCount st' = currentResponsesCount st /\
  st_context st' = st_context st /\
  st_log st' = st_log st ++ calls.
Proof.
  intros He Hc Hh st'. unfold st', on_input.
  rewrite He, Hc. unfold on_message. cbv zeta. rewrite Hh.
  unfold set_channel. cbn. by rewrite insert_id.
Qed.

Lemma latencies_app l1 l2 : latencies (l1 ++ l2) = latencies l1 ++ latencies l2.
Proof. unfold latencies. apply omap_app. Qed.

Lemma notices_latencies l :
  Forall (fun ev => is_notice ev = true) l -> latencies l = [].
Proof.
  induction 1 as [| ev l Hev _ IH]; [done |].
  change (ev :: l) with ([ev] ++ l).
  rewrite latencies_app, IH. by destruct ev.
Qed.

Lemma on_message_latencies e st c ch t payload :
  let st' := on_message cfg requestSpec e st c ch t payload in
  (count is_failed (st_log st') = count is_failed (st_log st) + 1 ->
   latencies (st_log st') = latencies (st_log st)) /\
  (count is_valid (st_log st') = count is_valid (st_log st) + 1 ->
   latencies (st_log st') = latencies (st_log st) ++ [t - startedAt st]).
Proof.
  intros st'. unfold st'.
  destruct (on_message_cases cfg requestSpec e st c ch t payload)
    as [[_ ->] | [(calls & Hn & ->) | [(calls & Hn & _ & ->)
       | (calls & resp & emitted & err & ctx' & Hn & Hm & _ & _ & ->)]]];
    unfold set_channel, end_listener; cbn [st_log];
    [rewrite app_nil_r; split; intros; lia | | |];
    destruct (notices_quiet calls Hn) as (_ & Hv & Hf & _).
  - rewrite !count_app, Hv, Hf. split; intros; lia.
  - rewrite !count_app, Hv, Hf. split; intros; lia.
  - destruct (notices_quiet emitted Hm) as (_ & Hv' & Hf' & _).
    rewrite !count_app, !latencies_app, Hv, Hf, Hv', Hf'.
    rewrite (notices_latencies calls Hn), (notices_latencies emitted Hm).
    rewrite markEndTime_delta.
    destruct err as [er |];
      [rewrite bool_decide_eq_true_2 by eauto
      | rewrite bool_decide_eq_false_2 by (by intros [? ?])];
      rewrite ?orb_true_r, ?orb_false_r;
      destruct (requiredCount ch - 1 =? index ch + 1);
      destruct (requiredResponsesCount st =? currentResponsesCount st + 1);
      rewrite ?count_cons, ?count_nil; simpl;
      rewrite ?app_nil_r; split; intros; first [done | lia].
Qed.

(** C7 (amended): a ['response'] notification with the time elapsed since
    the step started is emitted each time a message passes validation, the
    last required one or not; none is emitted for a message that fails
    validation, and none by the timer. *)
Theorem latency_recorded_for_valid_messages ctx now st0 inputs :
  awaits_responses requestSpec ctx = true ->
  f cfg requestSpec ctx now = Running st0 ->
  let st := exec cfg requestSpec st0 inputs in
  count is_response (st_log st) = count is_valid (st_log st) /\
  latencies (st_log (on_input cfg requestSpec st TimerFires))
  = latencies (st_log st) /\
  (forall t c payload,
      let st' := on_input cfg requestSpec st (Message t c payload) in
      (count is_failed (st_log st') = count is_failed (st_log st) + 1 ->
       latencies (st_log st') = latencies (st_log st)) /\
      (count is_valid (st_log st') = count is_valid (st_log st) + 1 ->
       latencies (st_log st') = latencies (st_log st) ++ [t - now])).
Proof.
  intros Ha Hf st.
  destruct (f_awaits cfg requestSpec ctx now Ha) as (e & He & _ & _).
  destruct (f_sound cfg requestSpec ctx now e st0 Ha He Hf)
    as (_ & _ & Htal & Hord & _ & _ & Hstart & _).
  destruct (exec_general cfg requestSpec _ inputs st0 (conj Htal Hord))
    as (Htal1 & _).
  fold st in Htal1.
  assert (Hnow : startedAt st = now).
  { unfold st. by rewrite (proj2 (exec_constants inputs st0)). }
  split; [apply Htal1 |]. split.
  - unfold on_input. rewrite He. unfold on_timeout.
    destruct (st_timer st); [| done]. cbn [st_log].
    rewrite latencies_app. case_bool_decide; by rewrite app_nil_r.
  - intros t c payload. cbv zeta. unfold on_input. rewrite He.
    destruct (st_channels st !! c) as [ch |] eqn:Hc; [| split; intros; lia].
    rewrite <- Hnow. apply on_message_latencies.
Qed.

(** C8 (amended): the timer of a step that waits for responses is set to
    the scenario's [config.timeout] when that is given and not zero,
    otherwise to 10, taken as seconds and multiplied by 1000.  The step's
    own [timeout] plays no part. *)
Theorem timer_from_config ctx now st :
  awaits_responses requestSpec ctx = true ->
  f cfg requestSpec ctx now = Running st ->
  st_timer st =
  Some (match cfg_timeout cfg with
        | Some seconds => if seconds =? 0 then 10 else seconds
        | None => 10
        end * 1000).
Proof.
  intros Ha Hf.
  destruct (f_awaits cfg requestSpec ctx now Ha) as (e & He & _ & _).
  by destruct (f_sound cfg requestSpec ctx now e st Ha He Hf)
    as (_ & _ & _ & _ & _ & _ & _ & ->).
Qed.

(** An emit step without a channel, or for a namespace under which
    [context.sockets] holds nothing, stored or inherited: [f] emits
    ['request'] and ['error'] and returns; nothing is transmitted, no
    listener or timer is set up, the callback is not called, and nothing
    that arrives later changes that. *)
Lemma f_invalid_arguments ctx now e :
  truthy (think requestSpec) = false ->
  emit requestSpec = Some e ->
  truthy (channel e) = false \/
  (sockets ctx !! to_key (namespace e) = None /\
   inherited (to_key (namespace e)) = false) ->
  f cfg requestSpec ctx now =
    Running (idle ctx [Emit_request; Emit_error (ErrString "invalid arguments")]
                  now)
  /\ forall inputs,
      exec cfg requestSpec
        (idle ctx [Emit_request; Emit_error (ErrString "invalid arguments")]
              now) inputs
      = idle ctx [Emit_request; Emit_error (ErrString "invalid arguments")] now.
Proof.
  intros Hth He Hbad. split.
  - unfold f. rewrite Hth, He.
    destruct Hbad as [-> | [-> ->]]; [done |].
    rewrite bool_decide_eq_false_2 by (by intros [? ?]).
    by rewrite andb_false_r.
  - induction inputs as [| i inputs IH]; [done |].
    rewrite <- IH at 2. unfold exec. cbn [foldl]. f_equal.
    unfold on_input. rewrite He. by destruct i.
Qed.

End Correlator.

(** ** The connection registry *)

Section RegistryFacts.
Context `{Collaborators}.
Variable cfg : config.

(** A client that reports only errors never causes a call of [cb]. *)
Lemma errors_never_call_back now s (ns : list (Z * notification)) :
  Forall (fun tn => exists e, tn.2 = ConnectionError e) ns ->
  cb_calls now (Waiting s) ns = [].
Proof.
  induction 1 as [| [t n] ns [e He] _ IH]; [done |].
  simpl in He. subst n. simpl. exact IH.
Qed.

(** Every [connect] notification of a new client calls [cb] again. *)
Lemma every_connect_calls_back now s (ns : list (Z * notification)) :
  Forall (fun tn => tn.2 = Connect) ns ->
  cb_calls now (Waiting s) ns = map (fun tn => (tn.1, (None, Some s))) ns.
Proof.
  induction 1 as [| [t n] ns He _ IH]; [done |].
  simpl in He. subst n. simpl. f_equal. exact IH.
Qed.

(** [preStep] for a namespace under which [context.sockets] holds nothing,
    when the new client reports only errors: the errors are written to the
    console; no step is started and none is failed, so the step's callback
    is never called. *)
Lemma preStep_errors_only requestSpec e ctx now (ns : list (Z * notification)) :
  emit requestSpec = Some e ->
  sockets ctx !! to_key (js_or (template (namespace e) ctx) (VStr "")) = None ->
  inherited (to_key (js_or (template (namespace e) ctx) (VStr ""))) = false ->
  Forall (fun tn => exists err, tn.2 = ConnectionError err) ns ->
  (preStep cfg requestSpec ctx now ns).2 = [].
Proof.
  intros He Hnone Hown Hns. unfold preStep. rewrite He.
  unfold loadContextSocket. rewrite Hnone, Hown. cbn [snd].
  by rewrite errors_never_call_back.
Qed.

End RegistryFacts.

(** ** The properties on sample steps *)



Lemma success_when_all_arrive_witness :
  count is_success_callback
    (st_log
       (exec (H := Demo.plain) Demo.defaults Demo.two_channels
          (Demo.started
             (f (H := Demo.plain) Demo.defaults Demo.two_channels Demo.user 100))
          [Message 150 "B" (VNum 2); Message 160 "A" (VNum 1)]))
  = (if bool_decide
          (count is_valid
             (st_log
                (exec (H := Demo.plain) Demo.defaults Demo.two_channels
                   (Demo.started
                      (f (H := Demo.plain) Demo.defaults Demo.two_channels
                         Demo.user 100))
                   [Message 150 "B" (VNum 2); Message 160 "A" (VNum 1)]))
           = requiredResponsesCount
               (exec (H := Demo.plain) Demo.defaults Demo.two_channels
                  (Demo.started
                     (f (H := Demo.plain) Demo.defaults Demo.two_channels
                        Demo.user 100))
                  [Message 150 "B" (VNum 2); Message 160 "A" (VNum 1)]))
     then 1 else 0).
Proof.
  refine (proj2 (proj2 (proj1 (proj2 (proj2 (proj2 (proj2
            (success_when_all_arrive (H := Demo.plain) Demo.defaults
               Demo.two_channels Demo.user 100 _ _
               [Message 150 "B" (VNum 2); Message 160 "A" (VNum 1)]
               _ _ _))))) _) _));
    vm_compute; reflexivity.
Defined.

(** Success is declared although only one of the two required messages was
    valid: the failed one was counted as received. *)
Lemma success_after_failure :
  let st :=
    exec (H := Demo.plain) Demo.defaults Demo.two_channels
      (Demo.started
         (f (H := Demo.plain) Demo.defaults Demo.two_channels Demo.user 100))
      [Message 150 "A" (VNum 9); Message 160 "B" (VNum 2)] in
  count is_success_callback (st_log st) = 1 /\
  count is_valid (st_log st) = 1 /\
  requiredResponsesCount st = 2 /\
  currentResponsesCount st = 2.
Proof. vm_compute. auto. Qed.

Lemma validation_failure_closes_its_channel_witness :
  closed
    (st_log
       (on_input (H := Demo.plain) Demo.defaults Demo.two_channels
          (Demo.started
             (f (H := Demo.plain) Demo.defaults Demo.two_channels Demo.user 100))
          (Message 150 "A" (VNum 9))))
  = closed
      (st_log
         (Demo.started
            (f (H := Demo.plain) Demo.defaults Demo.two_channels Demo.user 100)))
    ++ ["A"; "A"]%string.
Proof.
  refine (proj1 (proj2
    (validation_failure_closes_its_channel (H := Demo.plain) Demo.defaults
       Demo.two_channels _ _ "A"
       (listen (H := Demo.plain) Demo.user
          [Demo.expect "A" (VNum 1) VUndefined VUndefined])
       150 (VNum 9) []
       (Demo.expect "A" (VNum 1) VUndefined VUndefined)
       [Emit_error (ErrString "data is not valid")]
       (ErrString "data is not valid") Demo.user _ _ _ _ _ _)));
    vm_compute; reflexivity.
Defined.

(** After a failed validation on channel A the listener of channel B is
    still open, only the receiver of A was closed, and the next message on
    B is validated. *)
Lemma other_listener_stays_open :
  let st :=
    exec (H := Demo.plain) Demo.defaults Demo.two_channels
      (Demo.started
         (f (H := Demo.plain) Demo.defaults Demo.two_channels Demo.user 100))
      [Message 150 "A" (VNum 9)] in
  count is_error_callback (st_log st) = 1 /\
  listening <$> st_channels st !! "B" = Some true /\
  closed (st_log st) = ["A"; "A"]%string /\
  validated_on "B"
    (st_log (on_input (H := Demo.plain) Demo.defaults Demo.two_channels st
               (Message 160 "B" (VNum 2))))
  = [Demo.expect "B" (VNum 2) VUndefined VUndefined].
Proof. vm_compute. auto. Qed.

Lemma latency_recorded_for_valid_messages_witness :
  count is_response
    (st_log
       (exec (H := Demo.plain) Demo.defaults Demo.two_answers
          (Demo.started
             (f (H := Demo.plain) Demo.defaults Demo.two_answers Demo.user 100))
          [Message 150 "A" (VNum 1)]))
  = count is_valid
      (st_log
         (exec (H := Demo.plain) Demo.defaults Demo.two_answers
            (Demo.started
               (f (H := Demo.plain) Demo.defaults Demo.two_answers
                  Demo.user 100))
            [Message 150 "A" (VNum 1)])).
Proof.
  refine (proj1 (latency_recorded_for_valid_messages (H := Demo.plain)
                   Demo.defaults Demo.two_answers Demo.user 100 _
                   [Message 150 "A" (VNum 1)] _ _));
    vm_compute; reflexivity.
Defined.

(** A step failed by a validation error records no latency, and a step
    ended by the timer has recorded the latency of the valid message that
    came before. *)
Lemma no_latency_on_failure :
  (let st :=
     exec (H := Demo.plain) Demo.defaults Demo.one_answer
       (Demo.started
          (f (H := Demo.plain) Demo.defaults Demo.one_answer Demo.user 100))
       [Message 150 "A" (VNum 9)] in
   count is_error_callback (st_log st) = 1 /\ latencies (st_log st) = [])
  /\ (let st :=
        exec (H := Demo.plain) Demo.defaults Demo.two_answers
          (Demo.started
             (f (H := Demo.plain) Demo.defaults Demo.two_answers Demo.user 100))
          [Message 150 "A" (VNum 1); TimerFires] in
      count is_callback (st_log st) = 1 /\
      Callback (Some (ErrString "response timeout")) ∈ st_log st /\
      latencies (st_log st) = [50]).
Proof.
  vm_compute. repeat split; try reflexivity.
  do 5 apply list_elem_of_further. apply list_elem_of_here.
Qed.

Lemma timer_from_config_witness :
  st_timer
    (Demo.started
       (f (H := Demo.plain) Demo.twenty_seconds Demo.one_answer Demo.user 100))
  = Some 20000.
Proof.
  apply (timer_from_config (H := Demo.plain) Demo.twenty_seconds
           Demo.one_answer Demo.user 100);
    vm_compute; reflexivity.
Defined.

(** A step with a timeout of 5 seconds under a scenario timeout of 20
    seconds: the timer is set to 20000 ms, not to 5000 ms. *)
Lemma step_timeout_ignored :
  exists e,
    emit Demo.one_answer = Some e /\
    timeout e = Some 5 /\
    spec_waitTime Demo.twenty_seconds e = 5000 /\
    st_timer
      (Demo.started
         (f (H := Demo.plain) Demo.twenty_seconds Demo.one_answer Demo.user 100))
    = Some 20000 /\
    st_timer
      (Demo.started
         (f (H := Demo.plain) Demo.twenty_seconds Demo.one_answer Demo.user 100))
    <> Some (spec_waitTime Demo.twenty_seconds e).
Proof. eexists. repeat split; try (vm_compute; reflexivity). discriminate. Qed.

(** C4: for a step without a channel, and for a step whose namespace has
    no stored client, [f] emits ['request'] and the ['invalid arguments']
    error and transmits nothing; the callback is not called, neither then
    nor by anything that arrives later. *)
Theorem invalid_arguments_never_call_back :
  (let st :=
     exec (H := Demo.plain) Demo.defaults Demo.no_channel
       (Demo.started
          (f (H := Demo.plain) Demo.defaults Demo.no_channel Demo.user 100))
       [Message 150 "A" (VNum 1); TimerFires] in
   st_log st = [Emit_request; Emit_error (ErrString "invalid arguments")] /\
   count is_transmit (st_log st) = 0 /\ count is_callback (st_log st) = 0)
  /\ (let st :=
        exec (H := Demo.plain) Demo.defaults Demo.two_channels
          (Demo.started
             (f (H := Demo.plain) Demo.defaults Demo.two_channels
                Demo.stranger 100))
          [Message 150 "A" (VNum 1); TimerFires] in
      st_log st = [Emit_request; Emit_error (ErrString "invalid arguments")] /\
      count is_transmit (st_log st) = 0 /\ count is_callback (st_log st) = 0).
Proof. vm_compute. auto 10. Qed.

(** C5: [preStep] for a namespace without a stored client, when the new
    client reports an error: the error is written to the console; [cb] is
    not called, so no ['error'] notification is emitted, the step's callback
    is not called and the caller stays suspended.  A client that connects
    twice calls [cb] twice. *)
Theorem connection_error_never_resumes :
  preStep (H := Demo.plain) Demo.defaults Demo.two_channels Demo.stranger 100
    [(120, ConnectionError (VStr "refused"))]
  = ([ConsoleError (VStr "refused")], [])
  /\ length
       (preStep (H := Demo.plain) Demo.defaults Demo.two_channels
          Demo.stranger 100 [(120, Connect); (130, Connect)]).2
     = 2%nat.
Proof. vm_compute. auto. Qed.

(** C6: the hook is called before the channel's index is advanced: for the
    first message of a channel it is handed no expected response at all
    ([responses[-1]]), while the message is then validated against the
    first expected response; a hook that looks at the expected response
    turns the first message down. *)
Theorem hook_sees_stale_expected_response :
  st_log
    (exec (H := Demo.plain) (Demo.with_hook Demo.accept_all) Demo.screened
       (Demo.started
          (f (H := Demo.plain) (Demo.with_hook Demo.accept_all) Demo.screened
             Demo.user 100))
       [Message 150 "A" (VNum 1)])
  = [Emit_request; Transmit (VStr "ask") (VNum 1) false;
     HookCall "screen" (VNum 1) None;
     ProcessResponse "A" (VNum 1)
       (Demo.expect "A" (VNum 1) VUndefined VUndefined) None;
     Emit_response 50 0 (VStr "u1");
     CloseReceiver "A"; CloseReceiver "A"; Callback None]
  /\ st_log
       (exec (H := Demo.plain) (Demo.with_hook Demo.needs_expected)
          Demo.screened
          (Demo.started
             (f (H := Demo.plain) (Demo.with_hook Demo.needs_expected)
                Demo.screened Demo.user 100))
          [Message 150 "A" (VNum 1)])
     = [Emit_request; Transmit (VStr "ask") (VNum 1) false;
        HookCall "screen" (VNum 1) None].
Proof. vm_compute. auto. Qed.

(** * Further properties of the engine *)

(** ** Validation of one message *)

Section ValidationFacts.
Context `{Collaborators}.

Lemma no_failed_matches (l : list match_result) :
  List.filter (fun v => negb (success v)) l = [] <->
  Forall (fun v => success v = true) l.
Proof.
  induction l as [| v l IH]; [by split |].
  simpl. destruct (success v) eqn:Hv; simpl.
  - rewrite IH. split; [by constructor | by inversion 1].
  - split; [done |]. inversion 1; congruence.
Qed.

Lemma data_accepted data resp :
  truthy (r_data resp) && negb (deepEqual data (r_data resp)) = false <->
  truthy (r_data resp) = false \/ deepEqual data (r_data resp) = true.
Proof.
  destruct (truthy (r_data resp)), (deepEqual data (r_data resp));
    simpl; intuition congruence.
Qed.

(** X1: validation succeeds exactly when the data expectation, if there is
    one, is met and, if there are capture or match rules, [captureOrMatch]
    could be invoked and every match it reports holds. *)
Theorem processResponse_succeeds_iff data resp ctx :
  (processResponse data resp ctx).2.1 = None <->
  (truthy (r_data resp) = false \/ deepEqual data (r_data resp) = true) /\
  ((truthy (r_capture resp) = false /\ truthy (r_match resp) = false) \/
   exists result,
     captureOrMatch resp (JSON_stringify data) ctx = inr result /\
     Forall (fun v => success v = true) (matches result)).
Proof.
  rewrite <- data_accepted. unfold processResponse. cbv zeta.
  destruct (truthy (r_data resp) && negb (deepEqual data (r_data resp)));
    [simpl; intuition congruence |].
  destruct (truthy (r_capture resp)) eqn:Hc, (truthy (r_match resp)) eqn:Hm;
    simpl negb; cbn [andb]; try (simpl; by intuition auto).
  all: destruct (captureOrMatch resp (JSON_stringify data) ctx)
    as [err | result]; simpl.
  all: try (split; [done | intros [_ [[? ?] | (r & Hr & _)]]; congruence]).
  all: destruct (List.filter (fun v => negb (success v)) (matches result))
    as [| v l] eqn:Hf; simpl length.
  all: try (split; [intros _ | done]; split; [done |]; right;
            exists result; split; [done |]; by apply no_failed_matches).
  all: destruct (Z.ltb_spec 0 (Z.of_nat (S (length l)))); [| lia]; simpl.
  all: split; [done |].
  all: intros [_ [[? ?] | (r & [= <-] & Hall)]]; [congruence |].
  all: apply no_failed_matches in Hall; congruence.
Qed.


Lemma populate_lookup caps (vs : gmap string value) k :
  populate caps vs !! k =
  match (list_to_map (rev caps) : gmap string value) !! k with
  | Some v => Some v
  | None => vs !! k
  end.
Proof.
  revert vs. induction caps as [| [k' v'] caps IH]; intros vs; [done |].
  change (populate ((k', v') :: caps) vs) with (populate caps (<[k' := v']> vs)).
  rewrite IH. simpl rev. rewrite list_to_map_app.
  destruct ((list_to_map (rev caps) : gmap string value) !! k) as [v |] eqn:Hk.
  - by rewrite (lookup_union_Some_l _ _ _ _ Hk).
  - rewrite lookup_union_r by done. simpl.
    rewrite !lookup_insert. case_decide; [done |]. by rewrite lookup_empty.
Qed.

Lemma processResponse_success data resp ctx result :
  truthy (r_data resp) = false \/ deepEqual data (r_data resp) = true ->
  truthy (r_capture resp) = true \/ truthy (r_match resp) = true ->
  captureOrMatch resp (JSON_stringify data) ctx = inr result ->
  Forall (fun v => success v = true) (matches result) ->
  processResponse data resp ctx =
  (map match_event (matches result),
   (None,
    {| vars := <["$" := JSON_stringify data]>
                 (populate (captures result) (vars ctx));
       sockets := sockets ctx;
       _successCount := _successCount ctx + 1;
       _uid := _uid ctx |})).
Proof.
  intros Hd Hr Hcm Hall.
  destruct (processResponse_cases data resp ctx)
    as [(_ & _ & Ht & Heq & _) | [(_ & Hc & Hm) | (_ & [(e & Hcm' & _) | (r & Hcm' & [(Hf & _) | (_ & Ho)])])]];
    cbv zeta in *.
  - destruct Hd; congruence.
  - destruct Hr; congruence.
  - congruence.
  - rewrite Hcm in Hcm'. injection Hcm' as <-.
    by apply no_failed_matches in Hall.
  - rewrite Hcm in Hcm'. by injection Hcm' as <-.
Qed.

(** X3: after a validation that went through capture or match rules,
    [vars.$] holds the stringified message (also when a capture is named
    [$]), a captured name holds the value captured last under it, and
    every other variable holds what it held before. *)
Theorem processResponse_vars_lookup data resp ctx result k :
  truthy (r_data resp) = false \/ deepEqual data (r_data resp) = true ->
  truthy (r_capture resp) = true \/ truthy (r_match resp) = true ->
  captureOrMatch resp (JSON_stringify data) ctx = inr result ->
  Forall (fun v => success v = true) (matches result) ->
  vars (processResponse data resp ctx).2.2 !! k =
  if decide (k = "$") then Some (JSON_stringify data)
  else match (list_to_map (rev (captures result)) : gmap string value) !! k with
       | Some v => Some v
       | None => vars ctx !! k
       end.
Proof.
  intros Hd Hr Hcm Hall.
  rewrite (processResponse_success data resp ctx result Hd Hr Hcm Hall).
  cbn [snd vars]. rewrite lookup_insert.
  destruct (decide ("$" = k)) as [<- | Hne].
  - by rewrite decide_True.
  - rewrite decide_False by congruence. apply populate_lookup.
Qed.

End ValidationFacts.

(** ** The acknowledgement's [json] default *)

Lemma get_field_app_other k k' v fs :
  k <> k' -> get_field k (fs ++ [(k', v)]) = get_field k fs.
Proof.
  intros Hne. unfold get_field.
  induction fs as [| [k0 v0] fs IH]; simpl.
  - destruct (String.eqb_spec k' k); [congruence | done].
  - destruct (String.eqb k0 k); [done | apply IH].
Qed.

Lemma get_field_app_missing k v fs :
  get_field k fs = None -> get_field k (fs ++ [(k, v)]) = Some v.
Proof.
  unfold get_field.
  induction fs as [| [k0 v0] fs IH]; simpl.
  - by rewrite String.eqb_refl.
  - destruct (String.eqb k0 k); [done | apply IH].
Qed.

Lemma has_field k fs :
  existsb (fun kv : string * value => String.eqb kv.1 k) fs
  = bool_decide (is_Some (get_field k fs)).
Proof.
  unfold get_field.
  induction fs as [| [k0 v0] fs IH]; simpl; [done |].
  destruct (String.eqb k0 k); simpl; [done | apply IH].
Qed.

(** X5: the [json] default of the acknowledge path is given only to an
    object that has no [json]: an object with one and a value that is no
    object are left as they are; the object without one gains [json = '$.0']
    and keeps its other fields; applying the default twice changes nothing
    more. *)
Theorem default_json_only_when_missing v :
  default_json (default_json v) = default_json v /\
  (forall fs, v = VObj fs -> is_Some (get_field "json" fs) ->
              default_json v = v) /\
  (forall fs, v = VObj fs -> get_field "json" fs = None ->
              exists fs',
                default_json v = VObj fs' /\
                get_field "json" fs' = Some (VStr "$.0") /\
                forall k, k <> "json" -> get_field k fs' = get_field k fs) /\
  ((forall fs, v <> VObj fs) -> default_json v = v).
Proof.
  assert (Hhas : forall fs, is_Some (get_field "json" fs) ->
                            default_json (VObj fs) = VObj fs).
  { intros fs Hs. unfold default_json. rewrite has_field.
    by rewrite bool_decide_eq_true_2. }
  assert (Hmiss : forall fs, get_field "json" fs = None ->
                             default_json (VObj fs)
                             = VObj (fs ++ [("json", VStr "$.0")])).
  { intros fs Hn. unfold default_json. rewrite has_field.
    rewrite bool_decide_eq_false_2; [done |]. rewrite Hn. by intros [? ?]. }
  split; [| split; [| split]].
  - destruct v as [| | | | | | fs |]; try done.
    destruct (get_field "json" fs) as [j |] eqn:Hj.
    + by rewrite !Hhas by (rewrite Hj; eauto).
    + rewrite (Hmiss fs Hj). apply Hhas.
      rewrite get_field_app_missing by done. eauto.
  - intros fs -> Hs. by apply Hhas.
  - intros fs -> Hn. exists (fs ++ [("json", VStr "$.0")]).
    split; [by apply Hmiss |].
    split; [by apply get_field_app_missing |].
    intros k Hk. by apply get_field_app_other.
  - intros Hno. destruct v as [| | | | | | fs |]; try done.
    by destruct (Hno fs).
Qed.

(** ** Steps that wait for no response *)

Section SendFacts.
Context `{Collaborators}.
Variable cfg : config.
Variable requestSpec : request_spec.

(** A state without listeners, timer and pending acknowledgement takes no
    input. *)
Lemma exec_inert st inputs :
  st_channels st = ∅ -> st_timer st = None -> st_ack st = false ->
  exec cfg requestSpec st inputs = st.
Proof.
  intros Hch Ht Ha. induction inputs as [| i inputs IH]; [done |].
  rewrite <- IH at 2. unfold exec. cbn [foldl]. f_equal.
  unfold on_input. destruct (emit requestSpec); [| done].
  destruct i as [t c payload | t arguments |].
  - by rewrite Hch, lookup_empty.
  - by rewrite Ha.
  - unfold on_timeout. by rewrite Ht.
Qed.

(** A state that waits for an acknowledgement only takes nothing else. *)
Lemma exec_unacknowledged st inputs :
  st_channels st = ∅ -> st_timer st = None ->
  Forall (fun i => is_acknowledgement i = false) inputs ->
  exec cfg requestSpec st inputs = st.
Proof.
  intros Hch Ht. induction 1 as [| i inputs Hi _ IH]; [done |].
  rewrite <- IH at 2. unfold exec. cbn [foldl]. f_equal.
  unfold on_input. destruct (emit requestSpec); [| done].
  destruct i as [t c payload | t arguments |]; [| done |].
  - by rewrite Hch, lookup_empty.
  - unfold on_timeout. by rewrite Ht.
Qed.

Lemma f_sends ctx now e :
  truthy (think requestSpec) = false ->
  emit requestSpec = Some e ->
  truthy (channel e) = true ->
  is_Some (sockets ctx !! to_key (namespace e)) ->
  isResponseRequired e = false ->
  f cfg requestSpec ctx now =
  if isAcknowledgeRequired e then
    Running
      {| st_context := ctx;
         st_log := [Emit_request;
                    Transmit (template (channel e) ctx)
                             (template (data e) ctx) true];
         st_channels := ∅;
         requiredResponsesCount := 0; currentResponsesCount := 0;
         startedAt := now; st_timer := None; st_ack := true |}
  else
    Running (idle ctx
      [Emit_request;
       Transmit (template (channel e) ctx) (template (data e) ctx) false;
       markEndTime ctx (clock_after now) now; Callback None] now).
Proof.
  intros Hth He Hc Hs Hr. unfold f. rewrite Hth, He, Hc, Hr.
  by rewrite bool_decide_eq_true_2.
Qed.

(** X6: an emit step that requires no response (none is given, the one
    given has no channel, or the array given is empty) and no
    acknowledgement transmits once without acknowledgement callback,
    reports as latency the time between its two readings of the clock and
    calls the callback with no error, all before [f] returns; nothing that
    arrives later changes anything. *)
Theorem send_only_step_completes_at_once ctx now e :
  truthy (think requestSpec) = false ->
  emit requestSpec = Some e ->
  truthy (channel e) = true ->
  is_Some (sockets ctx !! to_key (namespace e)) ->
  isResponseRequired e = false ->
  acknowledge e = None ->
  exists st,
    f cfg requestSpec ctx now = Running st /\
    st_log st =
      [Emit_request;
       Transmit (template (channel e) ctx) (template (data e) ctx) false;
       Emit_response (clock_after now - now) 0 (_uid ctx); Callback None] /\
    st_context st = ctx /\
    forall inputs, exec cfg requestSpec st inputs = st.
Proof.
  intros Hth He Hc Hs Hr Ha.
  rewrite (f_sends ctx now e Hth He Hc Hs Hr).
  unfold isAcknowledgeRequired. rewrite Ha.
  rewrite bool_decide_eq_false_2 by (by intros [? ?]).
  eexists. split; [done |]. cbn [idle st_log st_context].
  rewrite markEndTime_delta.
  split; [done |]. split; [done |].
  intros inputs. by apply exec_inert.
Qed.

(** X7: an emit step that requires an acknowledgement and no response
    transmits once, with the acknowledgement callback, and sets no timer:
    as long as no acknowledgement arrives, neither messages nor a timer
    make it call the callback or report anything. *)
Theorem acknowledged_step_has_no_timeout ctx now e a inputs :
  truthy (think requestSpec) = false ->
  emit requestSpec = Some e ->
  truthy (channel e) = true ->
  is_Some (sockets ctx !! to_key (namespace e)) ->
  isResponseRequired e = false ->
  acknowledge e = Some a ->
  Forall (fun i => is_acknowledgement i = false) inputs ->
  exists st,
    f cfg requestSpec ctx now = Running st /\
    st_timer st = None /\
    st_log (exec cfg requestSpec st inputs) =
      [Emit_request;
       Transmit (template (channel e) ctx) (template (data e) ctx) true] /\
    count is_callback (st_log (exec cfg requestSpec st inputs)) = 0.
Proof.
  intros Hth He Hc Hs Hr Ha Hin.
  rewrite (f_sends ctx now e Hth He Hc Hs Hr).
  unfold isAcknowledgeRequired. rewrite Ha.
  rewrite bool_decide_eq_true_2 by eauto.
  eexists. split; [done |]. split; [done |].
  by rewrite exec_unacknowledged.
Qed.

(** What a state that waits for acknowledgements only does with one. *)
Lemma on_input_acknowledgement e a st t arguments :
  emit requestSpec = Some e -> acknowledge e = Some a -> st_ack st = true ->
  let out :=
    processResponse (VArguments arguments)
      {| r_channel := VUndefined;
         r_data := default_json (template (r_data a) (st_context st));
         r_capture := default_json (template (r_capture a) (st_context st));
         r_match := default_json (template (r_match a) (st_context st)) |}
      (st_context st) in
  on_input cfg requestSpec st (Acknowledgement t arguments) =
  {| st_context := out.2.2;
     st_log :=
       st_log st ++ out.1
       ++ (if bool_decide (is_Some out.2.1) then []
           else [Emit_response (t - startedAt st) 0 (_uid out.2.2)])
       ++ [Callback out.2.1];
     st_channels := st_channels st;
     requiredResponsesCount := requiredResponsesCount st;
     currentResponsesCount := currentResponsesCount st;
     startedAt := startedAt st;
     st_timer := st_timer st;
     st_ack := st_ack st |}.
Proof.
  intros He Ha Hack out. unfold on_input. rewrite He, Hack.
  unfold on_acknowledgement. rewrite Ha.
  fold out. destruct out as [emitted [err ctx']]. cbn [fst snd].
  by rewrite markEndTime_delta, Hack.
Qed.

Lemma exec_acknowledgements e a inputs st :
  emit requestSpec = Some e -> acknowledge e = Some a ->
  st_channels st = ∅ -> st_timer st = None -> st_ack st = true ->
  let st' := exec cfg requestSpec st inputs in
  st_channels st' = ∅ /\ st_timer st' = None /\ st_ack st' = true /\
  startedAt st' = startedAt st /\
  count is_callback (st_log st') =
  count is_callback (st_log st)
  + Z.of_nat (length (List.filter is_acknowledgement inputs)).
Proof.
  intros He Ha. revert st.
  induction inputs as [| i inputs IH]; intros st Hch Ht Hack; cbv zeta.
  { simpl. repeat split; try done. lia. }
  change (exec cfg requestSpec st (i :: inputs))
    with (exec cfg requestSpec (on_input cfg requestSpec st i) inputs).
  destruct i as [t c payload | t arguments |].
  - assert (Hsame : on_input cfg requestSpec st (Message t c payload) = st).
    { unfold on_input. by rewrite He, Hch, lookup_empty. }
    rewrite Hsame. by apply IH.
  - pose proof (on_input_acknowledgement e a st t arguments He Ha Hack) as Hs1.
    cbv zeta in Hs1.
    pose proof (processResponse_notices (VArguments arguments)
      {| r_channel := VUndefined;
         r_data := default_json (template (r_data a) (st_context st));
         r_capture := default_json (template (r_capture a) (st_context st));
         r_match := default_json (template (r_match a) (st_context st)) |}
      (st_context st)) as Hn.
    destruct (processResponse _ _ _) as [emitted [err ctx']].
    cbn [fst snd] in Hs1, Hn.
    destruct (notices_quiet emitted Hn) as (_ & _ & _ & Hcb & _).
    set (s1 := on_input cfg requestSpec st (Acknowledgement t arguments)) in *.
    destruct (IH s1) as (H1 & H2 & H3 & H4 & H5); [by rewrite Hs1 .. |].
    rewrite H1, H2, H3, H4, H5, Hs1. cbn [st_log startedAt].
    do 4 (split; [done |]).
    rewrite !count_app, Hcb. simpl List.filter. simpl length.
    destruct (bool_decide (is_Some err));
      rewrite ?count_cons, ?count_nil; simpl; lia.
  - assert (Hsame : on_input cfg requestSpec st TimerFires = st).
    { unfold on_input. rewrite He. unfold on_timeout. by rewrite Ht. }
    rewrite Hsame. by apply IH.
Qed.

(** X8: each time the transport calls the acknowledgement callback of such
    a step, the [arguments] object of that call is validated against the
    acknowledge description, templated on the context as it is at that
    moment and given the [json] default; the step's callback is called with
    the verdict, and a latency is reported only when there is no error.
    Nothing keeps an acknowledgement from being handled again: the step's
    callback has been called as many times as acknowledgements arrived. *)
Theorem acknowledged_step_calls_back_each_time
    ctx now e a st inputs t arguments :
  truthy (think requestSpec) = false ->
  emit requestSpec = Some e ->
  truthy (channel e) = true ->
  is_Some (sockets ctx !! to_key (namespace e)) ->
  isResponseRequired e = false ->
  acknowledge e = Some a ->
  f cfg requestSpec ctx now = Running st ->
  let st1 := exec cfg requestSpec st inputs in
  let out :=
    processResponse (VArguments arguments)
      {| r_channel := VUndefined;
         r_data := default_json (template (r_data a) (st_context st1));
         r_capture := default_json (template (r_capture a) (st_context st1));
         r_match := default_json (template (r_match a) (st_context st1)) |}
      (st_context st1) in
  let st' := on_input cfg requestSpec st1 (Acknowledgement t arguments) in
  st_log st' =
    st_log st1 ++ out.1
    ++ (if bool_decide (is_Some out.2.1) then []
        else [Emit_response (t - now) 0 (_uid out.2.2)])
    ++ [Callback out.2.1] /\
  st_context st' = out.2.2 /\
  count is_callback (st_log st1)
  = Z.of_nat (length (List.filter is_acknowledgement inputs)) /\
  (Forall (fun i => is_acknowledgement i = false) inputs ->
   st_context st1 = ctx /\
   st_log st1 =
     [Emit_request;
      Transmit (template (channel e) ctx) (template (data e) ctx) true]).
Proof.
  intros Hth He Hc Hs Hr Ha Hf st1 out st'.
  rewrite (f_sends ctx now e Hth He Hc Hs Hr) in Hf.
  unfold isAcknowledgeRequired in Hf. rewrite Ha in Hf.
  rewrite bool_decide_eq_true_2 in Hf by eauto. injection Hf as <-.
  match goal with
  | st1 := exec _ _ ?s _ |- _ =>
      destruct (exec_acknowledgements e a inputs s He Ha)
        as (Hch & Ht & Hack & Hstart & Hcount); [done .. |]
  end.
  fold st1 in Hch, Ht, Hack, Hstart, Hcount.
  cbn [startedAt st_log] in Hstart, Hcount.
  unfold st'.
  rewrite (on_input_acknowledgement e a st1 t arguments He Ha Hack).
  cbv zeta. fold out. cbn [st_log st_context]. rewrite Hstart.
  split; [done |]. split; [done |].
  split.
  { rewrite Hcount, !count_cons, count_nil. simpl. lia. }
  intros Hnone. unfold st1.
  by rewrite exec_unacknowledged.
Qed.

End SendFacts.

(** ** More on steps that wait for responses *)

Section CorrelatorMore.
Context `{Collaborators}.
Variable cfg : config.
Variable requestSpec : request_spec.

Lemma exec_invariant (P : step_state -> Prop) groups inputs st :
  (forall st i,
      tallied st -> in_order groups st ->
      P st -> P (on_input cfg requestSpec st i)) ->
  tallied st /\ in_order groups st ->
  P st -> P (exec cfg requestSpec st inputs).
Proof.
  intros Hstep. revert st.
  induction inputs as [| i inputs IH]; intros st Hst HP; [done |].
  apply IH; [by apply on_input_general |].
  destruct Hst as (? & ?). by apply Hstep.
Qed.

Lemma on_input_grows st i :
  exists new,
    st_log (on_input cfg requestSpec st i) = st_log st ++ new /\
    Forall (fun ev => is_transmit ev = false) new.
Proof.
  assert (Hnone : exists new : list event,
             st_log st = st_log st ++ new /\
             Forall (fun ev => is_transmit ev = false) new).
  { exists []. by rewrite app_nil_r. }
  assert (Hquiet : forall l, Forall (fun ev => is_notice ev = true) l ->
                             Forall (fun ev => is_transmit ev = false) l).
  { intros l Hl. apply Forall_forall. intros ev Hin.
    pose proof (proj1 (Forall_forall _ _) Hl ev Hin). by destruct ev. }
  unfold on_input. destruct (emit requestSpec) as [e |]; [| done].
  destruct i as [t c payload | t arguments |].
  - destruct (st_channels st !! c) as [ch |]; [| done].
    unfold on_message. cbv zeta.
    destruct (run_hook cfg requestSpec e ch (st_context st) payload)
      as [[[] calls] |] eqn:Hh.
    + apply run_hook_notices in Hh.
      destruct (at_index _ _) as [resp |];
        [| eexists; split; [done | by apply Hquiet]].
      pose proof (processResponse_notices payload resp (st_context st)) as Hn.
      destruct (processResponse _ _ _) as [emitted [err ctx']].
      cbn [fst] in Hn.
      eexists. split; [done |]. rewrite markEndTime_delta.
      repeat (apply Forall_app; split); auto.
      all: repeat match goal with
                  | |- context [if ?b then _ else _] => destruct b
                  end; by repeat constructor.
    + apply run_hook_notices in Hh. eexists. split; [done | by apply Hquiet].
    + exists []. by split.
  - destruct (st_ack st); [| done].
    unfold on_acknowledgement. destruct (acknowledge e) as [a |]; [| done].
    match goal with
    | |- context [processResponse ?d ?r ?c] =>
        pose proof (processResponse_notices d r c) as Hn;
        destruct (processResponse d r c) as [emitted [err ctx']]
    end.
    cbn [fst] in Hn.
    eexists. split; [done |]. rewrite markEndTime_delta.
    repeat (apply Forall_app; split); auto.
    all: repeat match goal with
                | |- context [if ?b then _ else _] => destruct b
                end; by repeat constructor.
  - unfold on_timeout. destruct (st_timer st); [| done].
    eexists. split; [done |].
    case_bool_decide; by repeat constructor.
Qed.

Lemma filter_no_transmit (new : list event) :
  Forall (fun ev => is_transmit ev = false) new ->
  List.filter is_transmit new = [].
Proof.
  induction 1 as [| ev new Hev _ IH]; [done |]. simpl. by rewrite Hev.
Qed.

(** X9: for a step that waits for responses, an [acknowledge] description
    plays no part: the one transmission carries no acknowledgement
    callback, and an acknowledgement arriving at any time is not
    processed. *)
Theorem acknowledge_ignored_when_responses_required ctx now e st0 inputs :
  awaits_responses requestSpec ctx = true ->
  emit requestSpec = Some e ->
  f cfg requestSpec ctx now = Running st0 ->
  let st := exec cfg requestSpec st0 inputs in
  st_ack st = false /\
  List.filter is_transmit (st_log st) =
    [Transmit (template (channel e) ctx) (template (data e) ctx) false] /\
  forall t arguments,
    on_input cfg requestSpec st (Acknowledgement t arguments) = st.
Proof.
  intros Ha He Hf st.
  destruct (f_sound cfg requestSpec ctx now e st0 Ha He Hf)
    as (_ & _ & Htal & Hord & _).
  destruct (f_awaits cfg requestSpec ctx now Ha) as (e' & He' & _ & Hf').
  rewrite He in He'. injection He' as <-.
  assert (Hack : st_ack st = false).
  { apply tal_ack.
    by apply (exec_general cfg requestSpec _ inputs st0 (conj Htal Hord)). }
  split; [done |]. split.
  - unfold st.
    refine (exec_invariant
              (fun s => List.filter is_transmit (st_log s) =
                        [Transmit (template (channel e) ctx)
                                  (template (data e) ctx) false])
              _ inputs st0 _ (conj Htal Hord) _).
    + intros s i _ _ Hs.
      destruct (on_input_grows s i) as (new & -> & Hnew).
      by rewrite List.filter_app, Hs, filter_no_transmit.
    + rewrite Hf in Hf'. by injection Hf' as ->.
  - intros t arguments. unfold on_input. by rewrite He, Hack.
Qed.

(** X10: [f] opens one listener for each distinct channel key among the
    declared responses and none for any other channel; each starts at
    index -1, with the responses declared for its channel, templated, in
    declaration order, and their number as required count.  The message is
    transmitted once and nothing is counted as received yet. *)
Theorem f_opens_one_listener_per_channel ctx now e st :
  awaits_responses requestSpec ctx = true ->
  emit requestSpec = Some e ->
  f cfg requestSpec ctx now = Running st ->
  (forall c,
      st_channels st !! c =
      if bool_decide
           (filter (fun r => to_key (r_channel r) = c) (requiredResponses e)
            = [])
      then None
      else Some
             {| index := -1;
                responses :=
                  map (render ctx)
                      (filter (fun r => to_key (r_channel r) = c)
                              (requiredResponses e));
                requiredCount :=
                  Z.of_nat
                    (length (filter (fun r => to_key (r_channel r) = c)
                                    (requiredResponses e)));
                listening := true |}) /\
  st_log st =
    [Emit_request;
     Transmit (template (channel e) ctx) (template (data e) ctx) false] /\
  currentResponsesCount st = 0 /\
  st_context st = ctx.
Proof.
  intros Ha He Hf.
  destruct (f_awaits cfg requestSpec ctx now Ha) as (e' & He' & _ & Hf').
  rewrite He in He'. injection He' as <-.
  rewrite Hf in Hf'. injection Hf' as ->. cbn.
  split; [| done].
  intros c. rewrite lookup_fmap, groupBy_lookup.
  by case_bool_decide.
Qed.

(** X11: in any run of a step that waits for responses, the messages
    validated on a channel never outnumber the responses declared for it,
    and the received counter is never below the number of validations.  As
    long as no listener takes a message after it closed its receiver, the
    counter is the number of validations and stays within the required
    count, and the index of a listener stays within the responses of its
    channel. *)
Theorem never_more_validated_than_declared ctx now e st0 inputs :
  awaits_responses requestSpec ctx = true ->
  emit requestSpec = Some e ->
  f cfg requestSpec ctx now = Running st0 ->
  let st := exec cfg requestSpec st0 inputs in
  (forall c,
      (length (validated_on c (st_log st))
       <= length (filter (fun r => to_key (r_channel r) = c)
                         (requiredResponses e)))%nat) /\
  count is_processed (st_log st) <= currentResponsesCount st /\
  (timely cfg requestSpec st0 inputs = true ->
   count is_processed (st_log st) = currentResponsesCount st /\
   0 <= currentResponsesCount st <= Z.of_nat (length (requiredResponses e)) /\
   (forall c ch,
       st_channels st !! c = Some ch ->
       -1 <= index ch < Z.of_nat (length (responses ch)))).
Proof.
  intros Ha He Hf st.
  destruct (f_sound cfg requestSpec ctx now e st0 Ha He Hf)
    as (Hcor & Hacc & Htal & Hord & Hlen & _).
  destruct (exec_general cfg requestSpec _ inputs st0 (conj Htal Hord))
    as (Htal1 & Hord1).
  fold st in Htal1, Hord1.
  split; [| split; [apply Htal1 |]].
  - intros c. specialize (Hord1 c).
    rewrite lookup_fmap, groupBy_lookup in Hord1.
    destruct (st_channels st !! c) as [ch |] eqn:Hc.
    + destruct Hord1 as (Hg & _ & ->).
      case_bool_decide; [done |]. injection Hg as Hg.
      apply (f_equal length) in Hg. rewrite length_map in Hg.
      rewrite length_take. lia.
    + apply prefix_length in Hord1.
      case_bool_decide as Hd; simpl in Hord1; [lia |].
      by rewrite length_map in Hord1.
  - intros Ht.
    destruct (exec_sound cfg requestSpec inputs st0 Ht (conj Hcor Hacc))
      as (Hcor1 & Hacc1).
    fold st in Hcor1, Hacc1.
    pose proof (acc_processed _ Hacc1) as Hp.
    split; [done |]. split.
    + rewrite <- Hlen, <- (proj1 (exec_constants cfg requestSpec inputs st0)).
      fold st. split; [rewrite Hp; apply count_nonneg |].
      pose proof (cor_missing _ Hcor1).
      assert (0 <= total missing (st_channels st)); [| lia].
      apply total_nonneg. intros c ch Hc.
      by eapply missing_nonneg.
    + intros c ch Hc.
      destruct (cor_channels _ Hcor1 c ch Hc) as (Hlo & Hhi & Hl & _). lia.
Qed.

Lemma processResponse_frame data resp ctx emitted err ctx' :
  processResponse data resp ctx = (emitted, (err, ctx')) ->
  sockets ctx' = sockets ctx /\ _uid ctx' = _uid ctx /\
  (_successCount ctx' = _successCount ctx \/
   (err = None /\ _successCount ctx' = _successCount ctx + 1)).
Proof.
  intros Hp.
  destruct (processResponse_cases data resp ctx)
    as [(He & Hc & _) | [(Ho & _) | (_ & [(e & _ & Ho) | (r & _ & [(_ & Ho) | (_ & Ho)])])]];
    cbv zeta in *; rewrite Hp in *; simpl in *.
  - subst. auto.
  - injection Ho as -> -> ->. auto.
  - injection Ho as -> -> ->. auto.
  - injection Ho as -> -> ->. auto.
  - injection Ho as -> -> ->. simpl. auto.
Qed.

Lemma on_input_frame ctx st i :
  st_ack st = false ->
  sockets (st_context st) = sockets ctx /\
  _uid (st_context st) = _uid ctx /\
  _successCount ctx <= _successCount (st_context st)
    <= _successCount ctx + count is_valid (st_log st) /\
  Forall (fun ev => is_response ev = true ->
                    exists d, ev = Emit_response d 0 (_uid ctx)) (st_log st) ->
  sockets (st_context (on_input cfg requestSpec st i)) = sockets ctx /\
  _uid (st_context (on_input cfg requestSpec st i)) = _uid ctx /\
  _successCount ctx <= _successCount (st_context (on_input cfg requestSpec st i))
    <= _successCount ctx
       + count is_valid (st_log (on_input cfg requestSpec st i)) /\
  Forall (fun ev => is_response ev = true ->
                    exists d, ev = Emit_response d 0 (_uid ctx))
         (st_log (on_input cfg requestSpec st i)).
Proof.
  intros Hack (Hs & Hu & Hn & Hr).
  assert (Hquiet : forall l, Forall (fun ev => is_notice ev = true) l ->
             Forall (fun ev => is_response ev = true ->
                               exists d, ev = Emit_response d 0 (_uid ctx)) l).
  { intros l Hl. apply Forall_forall. intros ev Hin.
    pose proof (proj1 (Forall_forall _ _) Hl ev Hin). by destruct ev. }
  unfold on_input. destruct (emit requestSpec) as [e |]; [| done].
  destruct i as [t c payload | t arguments |].
  - destruct (st_channels st !! c) as [ch |] eqn:Hc; [| done].
    destruct (on_message_cases cfg requestSpec e st c ch t payload)
      as [[_ ->] | [(calls & Hcalls & ->) | [(calls & Hcalls & _ & ->)
         | (calls & resp & emitted & err & ctx' & Hcalls & Hm & _ & Hp & ->)]]];
      unfold set_channel, end_listener; cbn [st_log st_context];
      [by rewrite app_nil_r | | |];
      rewrite !count_app;
      destruct (notices_quiet calls Hcalls) as (_ & Hv & _).
    + rewrite Hv, Z.add_0_r. repeat split; try done; try lia.
      apply Forall_app. auto.
    + rewrite Hv, Z.add_0_r. repeat split; try done; try lia.
      apply Forall_app. auto.
    + destruct (notices_quiet emitted Hm) as (_ & Hv' & _).
      destruct (processResponse_frame _ _ _ _ _ _ Hp) as (Hs' & Hu' & Hc').
      rewrite Hv, Hv', Hs', Hu', markEndTime_delta, Hu', Hu.
      split; [done |]. split; [done |]. split.
      * pose proof (count_nonneg is_valid (st_log st)).
        destruct Hc' as [Hc' | [Herr Hc']]; rewrite Hc';
          destruct err; try discriminate;
          destruct (_ =? _), (_ =? _);
          simpl; rewrite ?count_cons, ?count_nil; simpl; lia.
      * repeat (apply Forall_app; split); auto.
        all: repeat match goal with
               | |- context [if ?b then _ else _] => destruct b
               end; repeat constructor; try done; eauto.
  - by rewrite Hack.
  - unfold on_timeout. destruct (st_timer st); [| done].
    cbn [st_log st_context]. rewrite count_app.
    split; [done |]. split; [done |]. split.
    + case_bool_decide; rewrite ?count_cons, ?count_nil; simpl; lia.
    + apply Forall_app. split; [done |].
      case_bool_decide; by repeat constructor.
Qed.

(** X13: while a step waits for responses the context keeps its clients
    and its [_uid]; [_successCount] never goes down and grows by no more
    than the number of messages that passed validation; every latency is
    reported with status code 0 and that [_uid]. *)
Theorem running_step_keeps_the_registry ctx now st0 inputs :
  awaits_responses requestSpec ctx = true ->
  f cfg requestSpec ctx now = Running st0 ->
  let st := exec cfg requestSpec st0 inputs in
  sockets (st_context st) = sockets ctx /\
  _uid (st_context st) = _uid ctx /\
  _successCount ctx <= _successCount (st_context st)
    <= _successCount ctx + count is_valid (st_log st) /\
  Forall (fun ev => is_response ev = true ->
                    exists d, ev = Emit_response d 0 (_uid ctx)) (st_log st).
Proof.
  intros Ha Hf st.
  destruct (f_awaits cfg requestSpec ctx now Ha) as (e & He & Hreq & Hf').
  destruct (f_sound cfg requestSpec ctx now e st0 Ha He Hf)
    as (_ & _ & Htal & Hord & _).
  refine (exec_invariant
            (fun s =>
               sockets (st_context s) = sockets ctx /\
               _uid (st_context s) = _uid ctx /\
               _successCount ctx <= _successCount (st_context s)
                 <= _successCount ctx + count is_valid (st_log s) /\
               Forall (fun ev => is_response ev = true ->
                                 exists d, ev = Emit_response d 0 (_uid ctx))
                      (st_log s))
            _ inputs st0 _ (conj Htal Hord) _).
  - intros s i Hs _ HP. apply on_input_frame; [apply Hs | done].
  - rewrite Hf in Hf'. injection Hf' as ->. cbn [st_context st_log].
    rewrite !count_cons, count_nil. simpl.
    split; [done |]. split; [done |]. split; [lia |].
    by repeat constructor.
Qed.

End CorrelatorMore.

(** ** More on the connection registry and [preStep] *)

Section RegistryMore.
Context `{Collaborators}.
Variable cfg : config.

Lemma get_field_app k (l1 l2 : list (string * value)) :
  get_field k (l1 ++ l2) =
  match get_field k l1 with
  | Some v => Some v
  | None => get_field k l2
  end.
Proof.
  unfold get_field. induction l1 as [| [k0 v0] l1 IH]; simpl; [done |].
  destruct (String.eqb k0 k); [done | apply IH].
Qed.

Lemma get_field_set k k' v fs :
  get_field k (set_field k' v fs) =
  if String.eqb k' k then Some v else get_field k fs.
Proof.
  unfold get_field. induction fs as [| [k0 v0] fs IH]; simpl.
  - by destruct (String.eqb k' k).
  - destruct (String.eqb_spec k' k0) as [-> | Hne]; simpl.
    + by destruct (String.eqb k0 k).
    + destruct (String.eqb_spec k0 k) as [-> | Hne'].
      * by rewrite (proj2 (String.eqb_neq _ _) Hne).
      * apply IH.
Qed.

Lemma get_field_extend k a b :
  get_field k (obj_fields (extend a b)) =
  match get_field k (rev (obj_fields b)) with
  | Some v => Some v
  | None => get_field k (obj_fields a)
  end.
Proof.
  unfold extend. cbn [obj_fields].
  generalize (obj_fields a) as acc. generalize (obj_fields b) as fs.
  induction fs as [| [k0 v0] fs IH]; intros acc; [done |].
  cbn [foldl rev]. rewrite IH, get_field_app, get_field_set.
  destruct (get_field k (rev fs)); [done |].
  unfold get_field. simpl. by destruct (String.eqb k0 k).
Qed.

(** X15: for a namespace under which [context.sockets] holds nothing,
    stored or inherited, [loadContextSocket] creates a client, stores it
    under the namespace and waits for it; the options the client is created
    with are the templated transport options overridden by the TLS
    settings: a key the TLS settings give has their (last) value, any other
    key has the value of the transport options, if any. *)
Theorem tls_settings_override_transport_options ns ctx t k :
  sockets ctx !! ns = None ->
  inherited ns = false ->
  tls cfg = Some (VObj t) ->
  exists s,
    (loadContextSocket cfg ns ctx).2 = Waiting s /\
    sockets (loadContextSocket cfg ns ctx).1 !! ns = Some s /\
    get_field k (obj_fields (sock_options s))
    = match get_field k (rev t) with
      | Some v => Some v
      | None =>
          get_field k
            (obj_fields
               (template (js_or (default VUndefined (asyngular cfg)) (VObj []))
                         ctx))
      end.
Proof.
  intros Hns Hown Ht. unfold loadContextSocket. rewrite Hns, Hown, Ht.
  eexists. split; [done |]. cbn [fst sockets sock_options].
  split; [by rewrite lookup_insert_eq |].
  by rewrite get_field_extend.
Qed.

Lemma f_transmits requestSpec ctx now e :
  truthy (think requestSpec) = false ->
  emit requestSpec = Some e ->
  truthy (channel e) = true ->
  is_Some (sockets ctx !! to_key (namespace e)) ->
  exists st,
    f cfg requestSpec ctx now = Running st /\
    count is_transmit (st_log st) = 1 /\
    count is_invalid_arguments (st_log st) = 0.
Proof.
  intros Hth He Hc Hs.
  destruct (isResponseRequired e) eqn:Hr.
  - assert (Ha : awaits_responses requestSpec ctx = true).
    { unfold awaits_responses. rewrite Hth, He, Hc, Hr.
      by rewrite bool_decide_eq_true_2. }
    destruct (f_awaits cfg requestSpec ctx now Ha) as (e' & _ & _ & ->).
    eexists. split; [done |]. by cbn.
  - rewrite (f_sends cfg requestSpec ctx now e Hth He Hc Hs Hr).
    destruct (isAcknowledgeRequired e); eexists; (split; [done |]);
      cbn [idle st_log]; rewrite ?markEndTime_delta; by cbn.
Qed.

(** X17: [preStep] leaves a client stored under the rendered namespace of
    the step unless that namespace names a member every object inherits;
    when the step has a channel (and no think), every run of [f] that
    [preStep] starts, on a context that holds a client under the
    namespace, transmits the message exactly once and reports no ['invalid
    arguments'].  For a namespace that names an inherited member and no
    stored client, [preStep] creates no client and starts [f] once, at
    once, and [f] throws after its ['request'] notification. *)
Theorem preStep_hands_f_its_client requestSpec e ctx now ns :
  truthy (think requestSpec) = false ->
  emit requestSpec = Some e ->
  truthy (channel e) = true ->
  let key := to_key (js_or (template (namespace e) ctx) (VStr "")) in
  let ctx' := (loadContextSocket cfg key ctx).1 in
  (is_Some (sockets ctx !! key) \/ inherited key = false ->
   is_Some (sockets ctx' !! key)) /\
  (forall start ctx_then,
      start ∈ (preStep cfg requestSpec ctx now ns).2 ->
      is_Some (sockets ctx_then !! key) ->
      exists st,
        start ctx_then = Running st /\
        count is_transmit (st_log st) = 1 /\
        count is_invalid_arguments (st_log st) = 0) /\
  (sockets ctx !! key = None -> inherited key = true ->
   ctx' = ctx /\
   exists start,
     (preStep cfg requestSpec ctx now ns).2 = [start] /\
     start ctx' = Threw [Emit_request]).
Proof.
  intros Hth He Hc key ctx'.
  set (name := js_or (template (namespace e) ctx) (VStr "")) in *.
  assert (Hstart : forall ctx_then t,
             is_Some (sockets ctx_then !! key) ->
             exists st,
               f cfg (with_namespace requestSpec name) ctx_then t
               = Running st /\
               count is_transmit (st_log st) = 1 /\
               count is_invalid_arguments (st_log st) = 0).
  { intros ctx_then t Hs.
    apply (f_transmits (with_namespace requestSpec name) ctx_then t
             {| namespace := name; channel := channel e; data := data e;
                emit_response := emit_response e;
                acknowledge := acknowledge e;
                beforeResponse := beforeResponse e;
                timeout := timeout e |}); try done.
    unfold with_namespace. cbn [emit]. by rewrite He. }
  split; [| split].
  - unfold ctx', loadContextSocket.
    destruct (sockets ctx !! key) as [s |] eqn:Hs;
      [intros _; cbn [fst]; rewrite Hs; eauto |].
    intros [[? ?] | ->]; [done |].
    cbn [fst sockets]. rewrite lookup_insert_eq. eauto.
  - intros start ctx_then Hin Hs.
    unfold preStep in Hin. rewrite He in Hin. fold name in Hin. fold key in Hin.
    destruct (loadContextSocket cfg key ctx) as [c0 [s | | s]];
      cbn [snd cb_calls map] in Hin.
    + apply list_elem_of_singleton in Hin as ->. by apply Hstart.
    + apply list_elem_of_singleton in Hin as ->. by apply Hstart.
    + apply list_elem_of_fmap in Hin as ([t [err so]] & -> & Hcall).
      apply list_elem_of_omap in Hcall as ([t' n] & _ & Hcall).
      destruct n; [| done]. injection Hcall as <- <- <-.
      by apply Hstart.
  - intros Hs Hinh. unfold ctx', preStep, loadContextSocket.
    rewrite He. fold name. fold key. rewrite Hs, Hinh. cbn [fst snd].
    split; [done |]. eexists. split; [done |].
    unfold preStep_cb, f. cbn [with_namespace think emit].
    rewrite Hth, He. cbn [fmap option_fmap option_map namespace channel].
    fold name. fold key. rewrite Hc, Hs, Hinh.
    by rewrite bool_decide_eq_false_2 by (by intros [? ?]).
Qed.

End RegistryMore.

(** ** The further properties on sample steps *)

Lemma processResponse_vars_lookup_witness :
  vars (processResponse (H := Demo.plain) (VNum 3) Samples.captured
          Demo.user).2.2 !! "seen"
  = Some (VNum 3).
Proof.
  refine (processResponse_vars_lookup (H := Demo.plain) (VNum 3)
            Samples.captured Demo.user
            {| captures := [("seen", VNum 3)];
               matches := [{| success := true; expected := VNum 3;
                              got := VNum 3; expression := VStr "$" |}] |}
            "seen" _ _ _ _).
  - left. reflexivity.
  - left. reflexivity.
  - reflexivity.
  - repeat constructor.
Defined.

Lemma send_only_step_completes_at_once_witness :
  exists st,
    f (H := Demo.plain) Demo.defaults Samples.nothing_expected Demo.user 100
    = Running st /\
    st_log st =
      [Emit_request; Transmit (VStr "ask") (VNum 1) false;
       Emit_response 3 0 (VStr "u1"); Callback None] /\
    st_context st = Demo.user /\
    forall inputs,
      exec (H := Demo.plain) Demo.defaults Samples.nothing_expected st inputs
      = st.
Proof.
  refine (send_only_step_completes_at_once (H := Demo.plain) Demo.defaults
            Samples.nothing_expected Demo.user 100
            {| namespace := VStr ""; channel := VStr "ask"; data := VNum 1;
               emit_response := RespMany []; acknowledge := None;
               beforeResponse := VUndefined; timeout := None |}
            _ _ _ _ _ _); try reflexivity.
  exists Demo.client. reflexivity.
Defined.

Lemma acknowledged_step_has_no_timeout_witness :
  exists st,
    f (H := Demo.plain) Demo.defaults Samples.acked Demo.user 100 = Running st /\
    st_timer st = None /\
    st_log (exec (H := Demo.plain) Demo.defaults Samples.acked st
              [Message 150 "A" (VNum 1); TimerFires])
    = [Emit_request; Transmit (VStr "ask") (VNum 1) true] /\
    count is_callback
      (st_log (exec (H := Demo.plain) Demo.defaults Samples.acked st
                 [Message 150 "A" (VNum 1); TimerFires]))
    = 0.
Proof.
  refine (acknowledged_step_has_no_timeout (H := Demo.plain) Demo.defaults
            Samples.acked Demo.user 100
            {| namespace := VStr ""; channel := VStr "ask"; data := VNum 1;
               emit_response := RespAbsent;
               acknowledge :=
                 Some (Demo.expect "" (VNum 7) VUndefined VUndefined);
               beforeResponse := VUndefined; timeout := None |}
            (Demo.expect "" (VNum 7) VUndefined VUndefined)
            [Message 150 "A" (VNum 1); TimerFires] _ _ _ _ _ _ _);
    try reflexivity.
  - exists Demo.client. reflexivity.
  - repeat constructor.
Defined.

Lemma acknowledged_step_calls_back_each_time_witness :
  st_log
    (on_input (H := Demo.plain) Demo.defaults Samples.acked_freely
       (exec (H := Demo.plain) Demo.defaults Samples.acked_freely
          (Demo.started
             (f (H := Demo.plain) Demo.defaults Samples.acked_freely
                Demo.user 100))
          [TimerFires; Acknowledgement 150 [VNum 7]])
       (Acknowledgement 160 [VNum 8]))
  = [Emit_request; Transmit (VStr "ask") (VNum 1) true;
     Emit_response 50 0 (VStr "u1"); Callback None;
     Emit_response 60 0 (VStr "u1"); Callback None].
Proof.
  refine (proj1
    (acknowledged_step_calls_back_each_time (H := Demo.plain) Demo.defaults
       Samples.acked_freely Demo.user 100
       {| namespace := VStr ""; channel := VStr "ask"; data := VNum 1;
          emit_response := RespAbsent;
          acknowledge :=
            Some (Demo.expect "" VUndefined VUndefined VUndefined);
          beforeResponse := VUndefined; timeout := None |}
       (Demo.expect "" VUndefined VUndefined VUndefined)
       _ [TimerFires; Acknowledgement 150 [VNum 7]] 160 [VNum 8]
       _ _ _ _ _ _ _)); try reflexivity.
  exists Demo.client. reflexivity.
Defined.

Lemma acknowledge_ignored_when_responses_required_witness :
  st_ack
    (exec (H := Demo.plain) Demo.defaults Samples.answered_and_acked
       (Demo.started
          (f (H := Demo.plain) Demo.defaults Samples.answered_and_acked
             Demo.user 100))
       [Acknowledgement 150 [VNum 7]])
  = false.
Proof.
  refine (proj1
    (acknowledge_ignored_when_responses_required (H := Demo.plain)
       Demo.defaults Samples.answered_and_acked Demo.user 100 _ _
       [Acknowledgement 150 [VNum 7]] _ _ _));
    vm_compute; reflexivity.
Defined.

Lemma f_opens_one_listener_per_channel_witness :
  st_log
    (Demo.started
       (f (H := Demo.plain) Demo.defaults Demo.two_channels Demo.user 100))
  = [Emit_request; Transmit (VStr "ask") (VNum 1) false].
Proof.
  refine (proj1 (proj2
    (f_opens_one_listener_per_channel (H := Demo.plain) Demo.defaults
       Demo.two_channels Demo.user 100
       {| namespace := VStr ""; channel := VStr "ask"; data := VNum 1;
          emit_response :=
            RespMany [Demo.expect "A" (VNum 1) VUndefined VUndefined;
                      Demo.expect "B" (VNum 2) VUndefined VUndefined];
          acknowledge := None; beforeResponse := VUndefined;
          timeout := None |} _ _ _ _)));
    vm_compute; reflexivity.
Defined.

Lemma never_more_validated_than_declared_witness :
  count is_processed
    (st_log
       (exec (H := Demo.plain) Demo.defaults Demo.two_channels
          (Demo.started
             (f (H := Demo.plain) Demo.defaults Demo.two_channels Demo.user 100))
          [Message 150 "A" (VNum 1); Message 160 "B" (VNum 2)]))
  = currentResponsesCount
      (exec (H := Demo.plain) Demo.defaults Demo.two_channels
         (Demo.started
            (f (H := Demo.plain) Demo.defaults Demo.two_channels Demo.user 100))
         [Message 150 "A" (VNum 1); Message 160 "B" (VNum 2)]).
Proof.
  refine (proj1 (proj2 (proj2
    (never_more_validated_than_declared (H := Demo.plain) Demo.defaults
       Demo.two_channels Demo.user 100 _ _
       [Message 150 "A" (VNum 1); Message 160 "B" (VNum 2)] _ _ _)) _));
    vm_compute; reflexivity.
Defined.

Lemma running_step_keeps_the_registry_witness :
  sockets
    (st_context
       (exec (H := Demo.plain) Demo.defaults Demo.two_channels
          (Demo.started
             (f (H := Demo.plain) Demo.defaults Demo.two_channels Demo.user 100))
          [Message 150 "A" (VNum 1); Message 160 "B" (VNum 2)]))
  = sockets Demo.user.
Proof.
  refine (proj1
    (running_step_keeps_the_registry (H := Demo.plain) Demo.defaults
       Demo.two_channels Demo.user 100 _
       [Message 150 "A" (VNum 1); Message 160 "B" (VNum 2)] _ _));
    vm_compute; reflexivity.
Defined.

Lemma tls_settings_override_transport_options_witness :
  exists s,
    (loadContextSocket (H := Demo.plain) Samples.secured "" Demo.stranger).2
    = Waiting s /\
    sockets
      (loadContextSocket (H := Demo.plain) Samples.secured "" Demo.stranger).1
    !! "" = Some s /\
    get_field "port" (obj_fields (sock_options s)) = Some (VNum 443).
Proof.
  refine (tls_settings_override_transport_options (H := Demo.plain)
            Samples.secured "" Demo.stranger [("port", VNum 443)] "port"
            _ _ _);
    reflexivity.
Defined.

Lemma preStep_hands_f_its_client_witness :
  exists start,
    (preStep (H := Demo.plain) Demo.defaults Samples.inherited_name
       Demo.user 100 [(120, Connect)]).2 = [start] /\
    start
      (loadContextSocket (H := Demo.plain) Demo.defaults "constructor"
         Demo.user).1
    = Threw [Emit_request].
Proof.
  refine (proj2 (proj2 (proj2
    (preStep_hands_f_its_client (H := Demo.plain) Demo.defaults
       Samples.inherited_name
       {| namespace := VStr "constructor"; channel := VStr "ask";
          data := VNum 1; emit_response := RespAbsent;
          acknowledge := None; beforeResponse := VUndefined;
          timeout := None |}
       Demo.user 100 [(120, Connect)] _ _ _)) _ _));
    reflexivity.
Defined.
